(** * AStarAsync: a shallow embedding of [src/index.ts] and its properties

    The development follows the TypeScript source of the [AStar] class.

    Modelling conventions.
    - A [Node] is a JavaScript string.
    - The three objects [cameFrom], [totalCosts] and [linkCosts] are used by
      the source as dictionaries keyed by node; they are finite maps here.
      Node names are taken to be ordinary keys: the names that every
      JavaScript object inherits (such as [__proto__] or [hasOwnProperty]),
      for which property reads and writes are not dictionary operations,
      are outside the model.
    - A [Link] is an immutable value, and so is the array of links that
      the expander returns.
    - The numbers supplied by the collaborators (link costs, heuristic
      values) are exact integers.  Reading a missing property yields
      [undefined], which arithmetic turns into [NaN]; both are modelled, so
      that every read of the source has a meaning in the model.
    - [open] is a JavaScript [Set] that the source iterates: it is a
      duplicate-free list in insertion order.  [closed] is only tested for
      membership: it is a finite set.
    - The two collaborators are arbitrary effectful functions that may
      throw: they are state transformers over an abstract world [W] that
      return either an error or a value.  [await] of a rejected promise
      throws, and the source has no handler, so an error ends the call.
    - The two loops of [findPath] take a bound on their number of
      iterations; [Timeout] says that the bound was reached and stands for
      no behaviour of the source. *)

From stdpp Require Import gmap strings list fin_maps.
From Stdlib Require Import ZArith Lia.

Local Open Scope Z_scope.

(** ** Data model *)

Definition Node : Type := string.

Record Link : Type := mkLink {
  from : Node;
  to : Node;
  cost : Z;
}.

#[global] Instance Link_eq_dec : EqDecision Link.
Proof. solve_decision. Defined.

(** JavaScript numbers as the search produces them: a finite value, or
    [NaN] when an operand was [undefined]. *)
Inductive number : Type :=
  | Num (z : Z)
  | NaN.

#[global] Instance number_eq_dec : EqDecision number.
Proof. solve_decision. Defined.

(** ToNumber of a property read: a missing property reads as [undefined],
    which converts to [NaN]. *)
Definition to_number (v : option number) : number :=
  match v with
  | Some x => x
  | None => NaN
  end.

Definition num_add (a b : number) : number :=
  match a, b with
  | Num x, Num y => Num (x + y)
  | _, _ => NaN
  end.

(** [a < b] on property reads; every comparison with [NaN] is false. *)
Definition js_lt (a b : option number) : bool :=
  match to_number a, to_number b with
  | Num x, Num y => bool_decide (x < y)
  | _, _ => false
  end.

Definition js_gt (a b : option number) : bool := js_lt b a.

Module Path.
Record t : Type := mk {
  found : bool;
  iterations : nat;
  cost : option number;
  path : option (list Link);
}.
End Path.

#[global] Instance Path_eq_dec : EqDecision Path.t.
Proof. solve_decision. Defined.

(** ** Insertion-ordered sets *)

Definition set_add (x : Node) (s : list Node) : list Node :=
  if bool_decide (x ∈ s) then s else s ++ [x].

Definition set_delete (x : Node) (s : list Node) : list Node :=
  filter (λ y, y ≠ x) s.

(** ** Outcomes of a call *)

(** What a JavaScript call can throw: the value thrown by a collaborator,
    or the [TypeError] raised by reading a property of [undefined]. *)
Inductive exn (Err : Type) : Type :=
  | CollaboratorError (e : Err)
  | TypeError.
Arguments CollaboratorError {Err} e.
Arguments TypeError {Err}.

Inductive outcome (Err A : Type) : Type :=
  | Return (a : A)
  | Raise (e : exn Err)
  | Timeout.
Arguments Return {Err A} a.
Arguments Raise {Err A} e.
Arguments Timeout {Err A}.

(** What one pass through the body of [while (true)] does: falls through
    to the next pass, returns the not-found result, or breaks out with the
    goal as [best]. *)
Inductive pass (State : Type) : Type :=
  | Continue (st : State)
  | ReturnNotFound (p : Path.t)
  | Break (best : Node) (st : State).
Arguments Continue {State} st.
Arguments ReturnNotFound {State} p.
Arguments Break {State} best st.

(** The per-call search state of [findPath]. *)
Record State : Type := mkState {
  cameFrom : gmap Node (option Link);
  totalCosts : gmap Node number;
  linkCosts : gmap Node number;
  open : list Node;
  closed : gset Node;
  iterations : nat;
}.

(** [cameFrom], [linkCosts], [totalCosts], [open] and [closed] as lines
    81-101 leave them. *)
Definition init (start : Node) : State :=
  {| cameFrom := <[start := None]> ∅;
     totalCosts := <[start := Num 0]> ∅;
     linkCosts := <[start := Num 0]> ∅;
     open := set_add start [];
     closed := ∅;
     iterations := 1 |}.

(** One step of the scan at lines 109-113. *)
Definition better (tc : gmap Node number) (best : option Node) (openNode : Node)
  : option Node :=
  match best with
  | None => Some openNode
  | Some b => if js_lt (tc !! openNode) (tc !! b) then Some openNode else Some b
  end.

Definition select_best (tc : gmap Node number) (opn : list Node) : option Node :=
  fold_left (better tc) opn None.

(** The loop at lines 153-155.  [previousLink] is a property read: [None]
    is [undefined], [Some None] is [null].  An [undefined] passes the test
    [previousLink !== null], is pushed, and the read of its [from] throws. *)
Fixpoint trace_back {Err : Type} (fuel : nat) (cf : gmap Node (option Link))
    (previousLink : option (option Link)) (path : list Link)
  : outcome Err (list Link) :=
  match fuel with
  | O => Timeout
  | S fuel' =>
      match previousLink with
      | Some None => Return path
      | Some (Some l) => trace_back fuel' cf (cf !! from l) (l :: path)
      | None => Raise TypeError
      end
  end.

(** ** The updates of the search state *)

(** Lines 131-132: [linkCosts[best] + link.cost]. *)
Definition new_link_cost (best : Node) (st : State) (link : Link) : number :=
  let bestLinkCost := to_number (linkCosts st !! best) in
  num_add bestLinkCost (Num (cost link)).

(** Lines 134-135: the test that guards the relaxation. *)
Definition needs_update (st : State) (link : Link) (newLinkCost : number) : bool :=
  let linkCostToNextNodeExists := bool_decide (is_Some (linkCosts st !! to link)) in
  negb linkCostToNextNodeExists
  || js_gt (linkCosts st !! to link) (Some newLinkCost).

(** Lines 136-138, with [h] the value the heuristic returned. *)
Definition record_link (st : State) (link : Link) (newLinkCost : number) (h : Z)
  : State :=
  {| cameFrom := <[to link := Some link]> (cameFrom st);
     totalCosts := <[to link := num_add newLinkCost (Num h)]> (totalCosts st);
     linkCosts := <[to link := newLinkCost]> (linkCosts st);
     open := open st;
     closed := closed st;
     iterations := iterations st |}.

(** Line 141: [open.add(link.to)]. *)
Definition open_add (st : State) (n : Node) : State :=
  {| cameFrom := cameFrom st;
     totalCosts := totalCosts st;
     linkCosts := linkCosts st;
     open := set_add n (open st);
     closed := closed st;
     iterations := iterations st |}.

(** Lines 145-148: [best] moves from [open] to [closed]. *)
Definition close (st : State) (best : Node) : State :=
  {| cameFrom := cameFrom st;
     totalCosts := totalCosts st;
     linkCosts := linkCosts st;
     open := set_delete best (open st);
     closed := {[best]} ∪ closed st;
     iterations := S (iterations st) |}.

(** Lines 117-120: the result when [open] is exhausted. *)
Definition not_found (st : State) : Path.t :=
  {| Path.found := false;
     Path.iterations := iterations st;
     Path.cost := None;
     Path.path := None |}.

(** Lines 158-163: the result when the goal was selected. *)
Definition found_path (st : State) (best : Node) (path : list Link) : Path.t :=
  {| Path.found := true;
     Path.iterations := iterations st;
     Path.cost := linkCosts st !! best;
     Path.path := Some path |}.

Section AStar.

Context {W Err : Type}.

(** Computations that thread the collaborators' world and may throw. *)
Definition M (A : Type) : Type := W → outcome Err A * W.

Definition ret {A} (a : A) : M A := λ w, (Return a, w).

Definition bind {A B} (m : M A) (k : A → M B) : M B :=
  λ w, match m w with
       | (Return a, w') => k a w'
       | (Raise e, w') => (Raise e, w')
       | (Timeout, w') => (Timeout, w')
       end.

Definition lift {A} (o : outcome Err A) : M A := λ w, (o, w).

(** [await] of a collaborator call: a rejection is thrown. *)
Definition await {A} (call : W → (Err + A) * W) : M A :=
  λ w, match call w with
       | (inl e, w') => (Raise (CollaboratorError e), w')
       | (inr a, w') => (Return a, w')
       end.

Record AStar : Type := mkAStar {
  calculateLinksForNode : Node → W → (Err + list Link) * W;
  calculateHeuristicCostToTraverseLink : Node → Node → W → (Err + Z) * W;
}.

(** The constructor: the heuristic defaults to [() => 0]. *)
Definition new_AStar
    (links : Node → W → (Err + list Link) * W)
    (heuristic : option (Node → Node → W → (Err + Z) * W)) : AStar :=
  {| calculateLinksForNode := links;
     calculateHeuristicCostToTraverseLink :=
       default (λ _ _ w, (inr 0, w)) heuristic |}.

Variable this : AStar.
Variables start goal : Node.

(** The body of [for (const link of links)], lines 130-142. *)
Definition relax_link (best : Node) (st : State) (link : Link) : M State :=
  if bool_decide (to link ∈ closed st) then ret st
  else
    let newLinkCost := new_link_cost best st link in
    bind
      (if needs_update st link newLinkCost
       then
         bind (await (calculateHeuristicCostToTraverseLink this start (to link)))
           (λ h, ret (record_link st link newLinkCost h))
       else ret st)
      (λ st1, ret (open_add st1 (to link))).

Fixpoint relax_links (best : Node) (links : list Link) (st : State) : M State :=
  match links with
  | [] => ret st
  | link :: rest => bind (relax_link best st link) (relax_links best rest)
  end.

(** One pass through the body of [while (true)], lines 106-148. *)
Definition iteration (st : State) : M (pass State) :=
  match select_best (totalCosts st) (open st) with
  | None => ret (ReturnNotFound (not_found st))
  | Some best =>
      if bool_decide (goal = best) then ret (Break best st)
      else
        bind (await (calculateLinksForNode this best)) (λ links,
        bind (relax_links best links st) (λ st1,
        ret (Continue (close st1 best))))
  end.

(** The [while (true)] loop, lines 105-149: it is left by the [return]
    at line 117 ([inl]) or by the [break] at line 125 ([inr], with [best]
    and the state the code after the loop sees). *)
Fixpoint search (fuel : nat) (st : State) : M (Path.t + Node * State) :=
  match fuel with
  | O => lift Timeout
  | S fuel' =>
      bind (iteration st) (λ r,
        match r with
        | Continue st' => search fuel' st'
        | ReturnNotFound p => ret (inl p)
        | Break best st' => ret (inr (best, st'))
        end)
  end.

(** [findPath(start, goal)]. Each of its two loops runs at most [fuel]
    times. *)
Definition findPath (fuel : nat) : M Path.t :=
  bind (search fuel (init start)) (λ r,
    match r with
    | inl p => ret p
    | inr (best, st) =>
        bind (lift (trace_back fuel (cameFrom st) (cameFrom st !! best) []))
          (λ path, ret (found_path st best path))
    end).

End AStar.

Arguments AStar : clear implicits.
Arguments M : clear implicits.

(** ** Collaborators without effects *)

(** A collaborator that computes its answer from its arguments alone. *)
Definition pure_call {W Err A : Type} (a : A) : W → (Err + A) * W :=
  λ w, (inr a, w).

(** The links of a graph given as a list, as the test suite serves them:
    [links.filter((link) => link.from === node)]. *)
Definition graph_links (g : list Link) (node : Node) : list Link :=
  filter (λ link, from link = node) g.


Definition graph_astar (g : list Link) (H : option (Node → Node → Z))
  : AStar unit Empty_set :=
  new_AStar (λ node, pure_call (graph_links g node))
            ((λ h from to, pure_call (h from to)) <$> H).

(** ** Executions, step by step *)

(** The places of [findPath] at which the search state is observed. *)
Inductive point : Type :=
  | AtLoopHead
  | InForLoop (best : Node) (rest : list Link).

Section Execution.

Context {W Err : Type}.
Variable this : AStar W Err.
Variables start goal : Node.

(** One move of the search loop: selecting [best] and fetching its links,
    processing one link, or closing [best]. *)
Inductive step : point * State * W → point * State * W → Prop :=
  | step_expand st w best links w' :
      select_best (totalCosts st) (open st) = Some best →
      goal ≠ best →
      calculateLinksForNode this best w = (inr links, w') →
      step (AtLoopHead, st, w) (InForLoop best links, st, w')
  | step_relax st w best link rest st' w' :
      relax_link this start best st link w = (Return st', w') →
      step (InForLoop best (link :: rest), st, w) (InForLoop best rest, st', w')
  | step_close st w best :
      step (InForLoop best [], st, w) (AtLoopHead, close st best, w).

Definition reachable (w0 : W) (c : point * State * W) : Prop :=
  rtc step (AtLoopHead, init start, w0) c.

End Execution.

(** ** Invariants of the search state *)

(** What holds of the search state at every point of every execution,
    whatever the collaborators return. *)
Record Inv (start goal : Node) (st : State) : Prop := mkInv {
  inv_nodup : NoDup (open st);
  inv_disjoint : ∀ n, n ∈ open st → n ∉ closed st;
  inv_dom : ∀ n, is_Some (linkCosts st !! n) ↔ n ∈ open st ∨ n ∈ closed st;
  inv_total : ∀ n, is_Some (totalCosts st !! n) ↔ is_Some (linkCosts st !! n);
  inv_came : ∀ n, is_Some (cameFrom st !! n) ↔ is_Some (linkCosts st !! n);
  inv_link_num : ∀ n, linkCosts st !! n ≠ Some NaN;
  inv_total_num : ∀ n, totalCosts st !! n ≠ Some NaN;
  inv_goal : goal ∉ closed st;
  inv_start : start ∈ open st ∨ start ∈ closed st;
  inv_iterations : iterations st = S (size (closed st));
}.

(** Inside the [for] loop, [best] is an open node other than the goal. *)
Definition InvAt {W : Type} (start goal : Node) (c : point * State * W) : Prop :=
  Inv start goal c.1.2
  ∧ match c.1.1 with
    | AtLoopHead => True
    | InForLoop best _ => best ∈ open c.1.2 ∧ goal ≠ best
    end.

(** ** Assumptions on the expander *)

(** Every link that the expander returns for a node [n] satisfies [R n],
    whatever the state of the world. *)
Definition expander_spec {W Err : Type} (R : Node → Link → Prop)
    (this : AStar W Err) : Prop :=
  ∀ n w links w',
    calculateLinksForNode this n w = (inr links, w') → Forall (R n) links.

(** The links still to be processed inside the [for] loop satisfy [R]. *)
Definition pending {W : Type} (R : Node → Link → Prop)
    (c : point * State * W) : Prop :=
  match c.1.1 with
  | AtLoopHead => True
  | InForLoop best rest => Forall (R best) rest
  end.

(** The nodes the search has reached: those with an entry. *)
Definition reached (st : State) : gset Node := dom (linkCosts st).

(** ** Chains of [cameFrom] entries *)

(** [chain cf F n e p]: following [cameFrom] backwards from [n], every
    entry read is defined, the walk passes (after [n]) through nodes of
    [F] only, and it ends at [e], whose entry is [null]; [p] is the list of
    the links met, in the order [findPath] returns them. *)
Inductive chain (cf : gmap Node (option Link)) (F : Node → Prop)
  : Node → Node → list Link → Prop :=
  | chain_null n :
      cf !! n = Some None → chain cf F n n []
  | chain_link n e l p :
      cf !! n = Some (Some l) → F (from l) → chain cf F (from l) e p →
      chain cf F n e (p ++ [l]).

(** An expander is honest when each link it returns for a node starts at
    that node, and a link from a node to itself has no negative cost. *)
Definition honest_link (n : Node) (l : Link) : Prop :=
  from l = n ∧ (to l = n → 0 ≤ cost l).

(** The nodes whose entries no later step changes: the closed nodes and,
    inside the [for] loop, [best]. *)
Definition frozen_set {W : Type} (c : point * State * W) : gset Node :=
  match c.1.1 with
  | AtLoopHead => closed c.1.2
  | InForLoop best _ => {[best]} ∪ closed c.1.2
  end.

(** How [cameFrom] and [linkCosts] are related when the expander is
    honest and its links satisfy [P]. *)
Record ChainInv {W : Type} (P : Link → Prop) (start : Node)
    (c : point * State * W) : Prop := mkChainInv {
  ci_start : cameFrom c.1.2 !! start = Some None;
  ci_start_cost : linkCosts c.1.2 !! start = Some (Num 0);
  ci_null : ∀ n, cameFrom c.1.2 !! n = Some None → n = start;
  ci_start_frozen :
    start ∈ frozen_set c ∨ (c.1.1 = AtLoopHead ∧ open c.1.2 = [start]);
  ci_link : ∀ n l,
    cameFrom c.1.2 !! n = Some (Some l) →
    to l = n ∧ from l ∈ frozen_set c ∧ P l
    ∧ ∃ c0, linkCosts c.1.2 !! from l = Some (Num c0)
            ∧ linkCosts c.1.2 !! n = Some (Num (c0 + cost l));
  ci_chain : ∀ n,
    is_Some (cameFrom c.1.2 !! n) →
    ∃ p, chain (cameFrom c.1.2) (λ m, m ∈ frozen_set c) n start p;
}.

(** [n] is closed in [st'], out of its [open], and has the three entries
    it has in [st]. *)
Definition frozen (n : Node) (st st' : State) : Prop :=
  n ∈ closed st' ∧ (n ∉ open st')
  ∧ linkCosts st' !! n = linkCosts st !! n
  ∧ totalCosts st' !! n = totalCosts st !! n
  ∧ cameFrom st' !! n = cameFrom st !! n.

(** The nodes a search from [start] can reach when every link ends in
    [U]. *)
Definition universe (start : Node) (U : list Node) : gset Node :=
  {[start]} ∪ list_to_set U.

(** An honest link that moreover satisfies [P]. *)
Definition honest_P (P : Link → Prop) (n : Node) (l : Link) : Prop :=
  honest_link n l ∧ P l.

(** ** Paths of a graph *)

(** [p] is a path from [a] to [b] made of links of [g]. *)
Fixpoint is_path (g : list Link) (a b : Node) (p : list Link) : Prop :=
  match p with
  | [] => a = b
  | l :: p' => l ∈ g ∧ from l = a ∧ is_path g (to l) b p'
  end.

#[global] Instance is_path_dec g a b p : Decision (is_path g a b p).
Proof. revert a. induction p as [|l p IH]; intros a; simpl; apply _. Defined.


(** [h] is consistent on [g]: it drops by at most the cost along a link. *)
Definition consistent (g : list Link) (h : Node → Z) : Prop :=
  Forall (λ l, h (from l) ≤ cost l + h (to l)) g.

#[global] Instance consistent_dec g h : Decision (consistent g h).
Proof. unfold consistent. apply _. Defined.



(** ** A record of the collaborator calls *)

(** One call of a collaborator, with its answer. *)
Inductive call (Err : Type) : Type :=
  | CallLinks (node : Node) (answer : Err + list Link)
  | CallHeuristic (a b : Node) (answer : Err + Z).
Arguments CallLinks {Err} node answer.
Arguments CallHeuristic {Err} a b answer.

(** The error a call raised, if it raised one. *)
Definition failed {Err : Type} (c : call Err) : option Err :=
  match c with
  | CallLinks _ (inl e) => Some e
  | CallHeuristic _ _ (inl e) => Some e
  | _ => None
  end.

(** The same collaborators, with every call appended to a log kept in the
    world. *)
Definition logged {W Err : Type} (this : AStar W Err)
  : AStar (W * list (call Err)) Err :=
  {| calculateLinksForNode := λ node wl,
       let '(answer, w') := calculateLinksForNode this node wl.1 in
       (answer, (w', wl.2 ++ [CallLinks node answer]));
     calculateHeuristicCostToTraverseLink := λ a b wl,
       let '(answer, w') := calculateHeuristicCostToTraverseLink this a b wl.1 in
       (answer, (w', wl.2 ++ [CallHeuristic a b answer])) |}.

(** A computation extends the log by calls that all succeeded, or by
    successful calls followed by one failed call whose error it throws. *)
Definition clean {W Err A : Type} (m : M (W * list (call Err)) Err A) : Prop :=
  ∀ w log o w' log',
    m (w, log) = (o, (w', log')) →
    ∃ ext,
      log' = log ++ ext
      ∧ (Forall (λ c, failed c = None) ext
         ∨ ∃ ext' c e,
             ext = ext' ++ [c]
             ∧ Forall (λ c, failed c = None) ext'
             ∧ failed c = Some e
             ∧ o = Raise (CollaboratorError e)).

(** A computation over the logged world does what [m] does, the log
    apart. *)
Definition erases {W Err A : Type} (m' : M (W * list (call Err)) Err A)
    (m : M W Err A) : Prop :=
  ∀ w log, (m' (w, log)).1 = (m w).1 ∧ (m' (w, log)).2.1 = (m w).2.

(** ** Running a number of passes *)

(** The state after [n] passes of the loop that fall through, or the state
    at which the loop stops falling through. *)
Fixpoint passes {W Err : Type} (this : AStar W Err) (start goal : Node)
    (n : nat) (st : State) (w : W) : State * W :=
  match n with
  | O => (st, w)
  | S n' =>
      match iteration this start goal st w with
      | (Return (Continue st'), w') => passes this start goal n' st' w'
      | _ => (st, w)
      end
  end.

(** ** The graphs of the test suite *)

Local Open Scope string_scope.
Local Open Scope list_scope.
Local Open Scope Z_scope.

Definition one_link : list Link := [mkLink "a" "b" 1].

Definition two_routes : list Link :=
  [mkLink "a" "b" 3; mkLink "a" "c" 1; mkLink "b" "d" 3; mkLink "c" "d" 2].

Definition opposite_direction : list Link :=
  [mkLink "a" "z" 1; mkLink "a" "b" 10; mkLink "z" "y" 1; mkLink "y" "x" 1;
   mkLink "x" "w" 1; mkLink "b" "c" 5].

(** The heuristic of the last test: the distance in the alphabet. *)
Definition alphabet_index (n : Node) : Z :=
  match n with
  | String c EmptyString =>
      let i := Z.of_nat (Ascii.nat_of_ascii c) in
      if bool_decide (97 ≤ i ≤ 122)%Z then (i - 97)%Z else (-1)%Z
  | _ => (-1)%Z
  end.

Definition alphabet_distance (a b : Node) : Z :=
  Z.abs (alphabet_index a - alphabet_index b).

(** ** Graphs on which the search goes wrong *)

(** A cheap detour [s → a → b] that is found after [b] was closed. *)
Definition late_detour : list Link :=
  [mkLink "s" "b" 12; mkLink "s" "a" 10; mkLink "a" "b" 1; mkLink "b" "g" 10].

(** An estimate of the cost from ["s"] to ["a"] alone; it exceeds neither
    that cost nor the cost that remains from ["a"] to ["g"]. *)
Definition detour_estimate (a b : Node) : Z :=
  if bool_decide (a = "s" ∧ b = "a") then 10 else 0.





(** An expander that fails on node ["b"]. *)
Definition failing_expander : AStar unit string :=
  new_AStar
    (λ node w, if bool_decide (node = "b") then (inl "unreachable store", w)
               else (inr (graph_links two_routes node), w))
    None.



Local Close Scope string_scope.

(** ** Further notions for the properties of [findPath] *)

(** [p] leads from [a] to [b]: its first link starts at [a], each link
    starts where the one before it ends, and the last one ends at [b]. *)
Fixpoint linked (a b : Node) (p : list Link) : Prop :=
  match p with
  | [] => a = b
  | l :: p' => from l = a ∧ linked (to l) b p'
  end.

#[global] Instance linked_dec a b p : Decision (linked a b p).
Proof. revert a. induction p as [|l p IH]; intros a; simpl; apply _. Defined.

(** What holds of the search state on a graph [g], whatever the heuristic
    and the costs: the nodes with an entry are reachable from the start,
    and the targets of the links of closed nodes have an entry. *)
Record ReachInv {W : Type} (g : list Link) (start : Node)
    (c : point * State * W) : Prop := mkReachInv {
  ri_path : ∀ n,
    is_Some (linkCosts c.1.2 !! n) → ∃ q, is_path g start n q;
  ri_closed : ∀ l,
    l ∈ g → from l ∈ closed c.1.2 → is_Some (linkCosts c.1.2 !! to l);
  ri_best : ∀ l,
    l ∈ g →
    match c.1.1 with
    | AtLoopHead => True
    | InForLoop best rest =>
        from l = best → l ∈ rest ∨ is_Some (linkCosts c.1.2 !! to l)
    end;
}.

(** The nodes on which the expander was called, in the order of the
    calls. *)
Definition expanded {Err : Type} (log : list (call Err)) : list Node :=
  omap (λ c, match c with
             | CallLinks node _ => Some node
             | CallHeuristic _ _ _ => None
             end) log.

(** The targets of the links that the latest call of the expander in
    [log] returned; [cur] when [log] has no such call. *)
Fixpoint last_targets {Err : Type} (cur : list Node) (log : list (call Err))
  : list Node :=
  match log with
  | [] => cur
  | CallLinks _ (inr links) :: rest => last_targets (map to links) rest
  | CallLinks _ (inl _) :: rest => last_targets [] rest
  | CallHeuristic _ _ _ :: rest => last_targets cur rest
  end.

(** Every call of the heuristic in [log] has [start] as its first
    argument and, as its second, the target of a link that the latest call
    of the expander before it returned ([cur] before any such call). *)
Fixpoint heuristic_calls_ok {Err : Type} (start : Node) (cur : list Node)
    (log : list (call Err)) : Prop :=
  match log with
  | [] => True
  | CallLinks _ (inr links) :: rest => heuristic_calls_ok start (map to links) rest
  | CallLinks _ (inl _) :: rest => heuristic_calls_ok start [] rest
  | CallHeuristic a b _ :: rest =>
      a = start ∧ b ∈ cur ∧ heuristic_calls_ok start cur rest
  end.

(** [ext] consists of calls of the heuristic on [start] and a node of
    [T]. *)
Definition heuristic_only {Err : Type} (start : Node) (T : list Node)
    (ext : list (call Err)) : Prop :=
  Forall (λ c, ∃ b r, c = CallHeuristic start b r ∧ b ∈ T) ext.

(** What the log says of the state at the head of the search loop: the
    expanded nodes are the closed nodes, each expanded once, the first of
    them the start. *)
Definition log_agrees {Err : Type} (start : Node) (st : State)
    (log : list (call Err)) : Prop :=
  NoDup (expanded log)
  ∧ list_to_set (expanded log) = closed st
  ∧ (expanded log = [] → open st = [start])
  ∧ (∀ n rest, expanded log = n :: rest → n = start).

(** What the log says when the search loop is left, with the iteration
    count [its] if one is returned. *)
Definition log_summary {Err : Type} (start goal : Node)
    (log : list (call Err)) (its : option nat) : Prop :=
  NoDup (expanded log)
  ∧ (goal ∉ expanded log)
  ∧ (∀ n rest, expanded log = n :: rest → n = start)
  ∧ ∀ i, its = Some i → i = S (length (expanded log)).

(** * Properties *)

(** ** The monad *)

Section MonadLemmas.

Context {W Err : Type}.
Lemma bind_Return {A B} (m : M W Err A) (k : A → M W Err B) w b w' :
  bind m k w = (Return b, w') →
  ∃ a w1, m w = (Return a, w1) ∧ k a w1 = (Return b, w').
Proof.
  unfold bind. destruct (m w) as [[a|e|] w1]; [eauto | discriminate..].
Qed.

Lemma bind_Return_intro {A B} (m : M W Err A) (k : A → M W Err B) w a w1 :
  m w = (Return a, w1) → bind m k w = k a w1.
Proof. unfold bind. by intros ->. Qed.


Lemma ret_Return {A} (a b : A) (w w' : W) :
  ret (Err:=Err) a w = (Return b, w') → a = b ∧ w = w'.
Proof. by intros [= -> ->]. Qed.

Lemma await_Return {A} (call : W → (Err + A) * W) w a w' :
  await call w = (Return a, w') ↔ call w = (inr a, w').
Proof.
  unfold await. destruct (call w) as [[e|x] w1]; split; congruence.
Qed.

End MonadLemmas.

(** ** What one link does to the state *)

Section RelaxLink.

Context {W Err : Type}.
Variable this : AStar W Err.
Variables start goal : Node.

(** The three ways through lines 130-142. *)
Lemma relax_link_Return best st link w st' w' :
  relax_link this start best st link w = (Return st', w') →
  (to link ∈ closed st ∧ st' = st ∧ w' = w)
  ∨ ((to link ∉ closed st)
     ∧ needs_update st link (new_link_cost best st link) = false
     ∧ st' = open_add st (to link) ∧ w' = w)
  ∨ ((to link ∉ closed st)
     ∧ needs_update st link (new_link_cost best st link) = true
     ∧ ∃ h, calculateHeuristicCostToTraverseLink this start (to link) w = (inr h, w')
            ∧ st' = open_add (record_link st link (new_link_cost best st link) h)
                             (to link)).
Proof.
  unfold relax_link. case_bool_decide as Hc.
  - intros [-> ->]%ret_Return. by left.
  - right. destruct (needs_update _ _ _) eqn:Hu.
    + right. apply bind_Return in H as (st1 & w1 & H1 & H2).
      apply bind_Return in H1 as (h & w2 & H1 & H3).
      apply await_Return in H1.
      apply ret_Return in H3 as [<- <-]. apply ret_Return in H2 as [<- <-].
      eauto 10.
    + left. apply bind_Return in H as (st1 & w1 & H1 & H2).
      apply ret_Return in H1 as [<- <-]. apply ret_Return in H2 as [<- <-].
      done.
Qed.

Lemma relax_link_closed best st link w st' w' :
  relax_link this start best st link w = (Return st', w') →
  closed st' = closed st ∧ iterations st' = iterations st.
Proof.
  by intros [(Hc & -> & ->)|[(Hc & Hu & -> & ->)|(Hc & Hu & h & Hh & ->)]]%relax_link_Return.
Qed.

Lemma relax_links_closed best links st w st' w' :
  relax_links this start best links st w = (Return st', w') →
  closed st' = closed st ∧ iterations st' = iterations st.
Proof.
  revert st w. induction links as [|l ls IH]; intros st w; simpl.
  - by intros [-> ->]%ret_Return.
  - intros (st1 & w1 & H1 & H2)%bind_Return.
    apply relax_link_closed in H1 as [<- <-]. by eapply IH.
Qed.

Lemma relax_links_steps best links st w st' w' :
  relax_links this start best links st w = (Return st', w') →
  rtc (step this start goal) (InForLoop best links, st, w) (InForLoop best [], st', w').
Proof.
  revert st w. induction links as [|l ls IH]; intros st w; simpl.
  - intros [-> ->]%ret_Return. done.
  - intros (st1 & w1 & H1 & H2)%bind_Return.
    eapply rtc_l; [by apply step_relax | by apply IH].
Qed.

Lemma iteration_Continue st w st' w' :
  iteration this start goal st w = (Return (Continue st'), w') →
  rtc (step this start goal) (AtLoopHead, st, w) (AtLoopHead, st', w').
Proof.
  unfold iteration. destruct (select_best _ _) as [best|] eqn:Hb.
  - case_bool_decide as Hg; [by intros [? ?]%ret_Return|].
    intros (links & w1 & H1 & H2)%bind_Return.
    apply await_Return in H1.
    apply bind_Return in H2 as (st1 & w2 & H2 & H3).
    apply ret_Return in H3 as [[= <-] <-].
    eapply rtc_l; [by eapply step_expand|].
    eapply rtc_r; [by eapply relax_links_steps|]. apply step_close.
  - by intros [? ?]%ret_Return.
Qed.

Lemma iteration_Break st w best st' w' :
  iteration this start goal st w = (Return (Break best st'), w') →
  st' = st ∧ w' = w ∧ goal = best
  ∧ select_best (totalCosts st) (open st) = Some best.
Proof.
  unfold iteration. destruct (select_best _ _) as [b|] eqn:Hb.
  - case_bool_decide as Hg.
    + intros [[= <- <-] ->]%ret_Return. done.
    + intros (links & w1 & H1 & H2)%bind_Return.
      apply bind_Return in H2 as (st1 & w2 & H2 & H3).
      by apply ret_Return in H3 as [? ?].
  - by intros [? ?]%ret_Return.
Qed.

Lemma iteration_ReturnNotFound st w p w' :
  iteration this start goal st w = (Return (ReturnNotFound p), w') →
  p = not_found st ∧ w' = w
  ∧ select_best (totalCosts st) (open st) = None.
Proof.
  unfold iteration. destruct (select_best _ _) as [b|] eqn:Hb.
  - case_bool_decide as Hg.
    + by intros [? ?]%ret_Return.
    + intros (links & w1 & H1 & H2)%bind_Return.
      apply bind_Return in H2 as (st1 & w2 & H2 & H3).
      by apply ret_Return in H3 as [? ?].
  - intros [[= <-] ->]%ret_Return. done.
Qed.

(** The loop leaves through [break] only at a state it reached, with the
    goal selected as [best]. *)
Lemma search_Break fuel st w best st' w' :
  search this start goal fuel st w = (Return (inr (best, st')), w') →
  rtc (step this start goal) (AtLoopHead, st, w) (AtLoopHead, st', w')
  ∧ goal = best
  ∧ select_best (totalCosts st') (open st') = Some best.
Proof.
  revert st w. induction fuel as [|fuel IH]; intros st w; simpl; [done|].
  intros ([st1|p|b st1] & w1 & H1 & H2)%bind_Return.
  - apply iteration_Continue in H1. apply IH in H2 as (H2 & ? & ?).
    split; [by etrans|done].
  - by apply ret_Return in H2 as [? ?].
  - apply ret_Return in H2 as [[= -> ->] ->].
    apply iteration_Break in H1 as (-> & -> & ? & ?). done.
Qed.

Lemma search_NotFound fuel st w p w' :
  search this start goal fuel st w = (Return (inl p), w') →
  ∃ st', rtc (step this start goal) (AtLoopHead, st, w) (AtLoopHead, st', w')
    ∧ p = not_found st'
    ∧ select_best (totalCosts st') (open st') = None.
Proof.
  revert st w. induction fuel as [|fuel IH]; intros st w; simpl; [done|].
  intros ([st1|q|b st1] & w1 & H1 & H2)%bind_Return.
  - apply iteration_Continue in H1. apply IH in H2 as (st' & H2 & ? & ?).
    exists st'. split; [by etrans|done].
  - apply ret_Return in H2 as [[= ->] ->].
    apply iteration_ReturnNotFound in H1 as (-> & -> & ?). by exists st.
  - by apply ret_Return in H2 as [? ?].
Qed.

End RelaxLink.

(** ** The ordered set [open] *)

Lemma elem_of_set_add (x y : Node) (s : list Node) :
  y ∈ set_add x s ↔ y = x ∨ y ∈ s.
Proof.
  unfold set_add. case_bool_decide as Hx.
  - split; [by right | by intros [->|?]].
  - rewrite elem_of_app, list_elem_of_singleton. tauto.
Qed.

Lemma NoDup_set_add (x : Node) (s : list Node) : NoDup s → NoDup (set_add x s).
Proof.
  intros Hs. unfold set_add. case_bool_decide as Hx; [done|].
  apply NoDup_app. split_and!; [done | | apply NoDup_singleton].
  intros y Hy ->%list_elem_of_singleton. done.
Qed.

Lemma set_add_nil (x : Node) : set_add x [] = [x].
Proof.
  unfold set_add. rewrite bool_decide_eq_false_2; [done | apply not_elem_of_nil].
Qed.

Lemma elem_of_set_delete (x y : Node) (s : list Node) :
  y ∈ set_delete x s ↔ y ∈ s ∧ y ≠ x.
Proof. unfold set_delete. rewrite list_elem_of_filter. tauto. Qed.

Lemma NoDup_set_delete (x : Node) (s : list Node) :
  NoDup s → NoDup (set_delete x s).
Proof. apply NoDup_filter. Qed.

(** ** Selection of [best] *)

Lemma select_best_snoc tc opn x :
  select_best tc (opn ++ [x]) = better tc (select_best tc opn) x.
Proof. unfold select_best. by rewrite fold_left_app. Qed.

Lemma select_best_None tc opn : select_best tc opn = None ↔ opn = [].
Proof.
  split; [|by intros ->].
  induction opn as [|x opn _] using rev_ind; [done|].
  rewrite select_best_snoc. unfold better.
  destruct (select_best tc opn); [by case_match | done].
Qed.

Lemma select_best_elem tc opn best :
  select_best tc opn = Some best → best ∈ opn.
Proof.
  revert best. induction opn as [|x opn IH] using rev_ind; intros best; [done|].
  rewrite select_best_snoc, elem_of_app, list_elem_of_singleton. unfold better.
  destruct (select_best tc opn) as [b|]; [|intros [= ->]; by right].
  case_match; intros [= <-]; [by right | left; by apply IH].
Qed.


(** ** The invariant of every execution *)

Lemma lookup_Num (m : gmap Node number) (n : Node) :
  is_Some (m !! n) → m !! n ≠ Some NaN → ∃ v, m !! n = Some (Num v).
Proof. intros [[v|] Hv] Hn; [eauto | done]. Qed.

Section Invariant.

Context {W Err : Type}.
Variable this : AStar W Err.
Variables start goal : Node.

Lemma Inv_init : Inv start goal (init start).
Proof.
  split; simpl; rewrite ?set_add_nil.
  - apply NoDup_singleton.
  - set_solver.
  - intros n. rewrite list_elem_of_singleton.
    destruct (decide (n = start)) as [->|Hn].
    + rewrite lookup_insert_eq. split; [by left | by eauto].
    + rewrite lookup_insert_ne, lookup_empty by done.
      split; [by intros [? ?] | set_solver].
  - intros n. destruct (decide (n = start)) as [->|Hn].
    + rewrite !lookup_insert_eq. split; eauto.
    + by rewrite !lookup_insert_ne, !lookup_empty by done.
  - intros n. destruct (decide (n = start)) as [->|Hn].
    + rewrite !lookup_insert_eq. split; eauto.
    + by rewrite !lookup_insert_ne, !lookup_empty by done.
  - intros n. destruct (decide (n = start)) as [->|Hn].
    + by rewrite lookup_insert_eq.
    + by rewrite lookup_insert_ne, lookup_empty by done.
  - intros n. destruct (decide (n = start)) as [->|Hn].
    + by rewrite lookup_insert_eq.
    + by rewrite lookup_insert_ne, lookup_empty by done.
  - set_solver.
  - left. by apply list_elem_of_singleton.
  - done.
Qed.

Lemma new_link_cost_Num best st link :
  Inv start goal st → best ∈ open st →
  ∃ c, linkCosts st !! best = Some (Num c)
       ∧ new_link_cost best st link = Num (c + cost link).
Proof.
  intros HI Hb.
  destruct (lookup_Num (linkCosts st) best) as [c Hc].
  - apply HI. by left.
  - apply HI.
  - exists c. split; [done|]. unfold new_link_cost. by rewrite Hc.
Qed.

Lemma Inv_open_add st n :
  Inv start goal st → n ∉ closed st → is_Some (linkCosts st !! n) →
  Inv start goal (open_add st n).
Proof.
  intros HI Hc Hn. split; simpl.
  - apply NoDup_set_add, HI.
  - intros m [->|Hm]%elem_of_set_add; [done | by apply HI].
  - intros m. rewrite elem_of_set_add, (inv_dom _ _ _ HI).
    split; [tauto|]. intros [[->|?]|?]; [|tauto..].
    apply (inv_dom _ _ _ HI). done.
  - apply (inv_total _ _ _ HI).
  - apply (inv_came _ _ _ HI).
  - apply (inv_link_num _ _ _ HI).
  - apply (inv_total_num _ _ _ HI).
  - apply (inv_goal _ _ _ HI).
  - destruct (inv_start _ _ _ HI); [left | by right].
    apply elem_of_set_add. by right.
  - apply (inv_iterations _ _ _ HI).
Qed.

Lemma Inv_record_link st link c h :
  Inv start goal st → to link ∉ closed st →
  Inv start goal (open_add (record_link st link (Num c) h) (to link)).
Proof.
  intros HI Hc. split; simpl.
  - apply NoDup_set_add, HI.
  - intros m [->|Hm]%elem_of_set_add; [done | by apply HI].
  - intros m. rewrite elem_of_set_add.
    destruct (decide (m = to link)) as [->|Hm].
    + rewrite lookup_insert_eq. split; [by left; left | by eauto].
    + rewrite lookup_insert_ne by done. rewrite (inv_dom _ _ _ HI). tauto.
  - intros m. destruct (decide (m = to link)) as [->|Hm].
    + rewrite !lookup_insert_eq. split; eauto.
    + rewrite !lookup_insert_ne by done. apply HI.
  - intros m. destruct (decide (m = to link)) as [->|Hm].
    + rewrite !lookup_insert_eq. split; eauto.
    + rewrite !lookup_insert_ne by done. apply HI.
  - intros m. destruct (decide (m = to link)) as [->|Hm].
    + by rewrite lookup_insert_eq.
    + rewrite lookup_insert_ne by done. apply HI.
  - intros m. destruct (decide (m = to link)) as [->|Hm].
    + by rewrite lookup_insert_eq.
    + rewrite lookup_insert_ne by done. apply HI.
  - apply (inv_goal _ _ _ HI).
  - destruct (inv_start _ _ _ HI); [left | by right].
    apply elem_of_set_add. by right.
  - apply (inv_iterations _ _ _ HI).
Qed.

Lemma needs_update_false st link c :
  needs_update st link c = false → is_Some (linkCosts st !! to link).
Proof.
  unfold needs_update. intros [H _]%orb_false_elim.
  apply negb_false_iff in H. by apply bool_decide_eq_true in H.
Qed.

Lemma Inv_relax_link best st link w st' w' :
  Inv start goal st → best ∈ open st →
  relax_link this start best st link w = (Return st', w') →
  Inv start goal st' ∧ best ∈ open st'.
Proof.
  intros HI Hb [(Hc & -> & ->)|[(Hc & Hu & -> & ->)|(Hc & Hu & h & Hh & ->)]]%relax_link_Return.
  - done.
  - split.
    + apply Inv_open_add; [done..|]. by eapply needs_update_false.
    + simpl. apply elem_of_set_add. by right.
  - destruct (new_link_cost_Num best st link HI Hb) as (c & _ & ->).
    split.
    + by apply Inv_record_link.
    + simpl. apply elem_of_set_add. by right.
Qed.

Lemma Inv_close st best :
  Inv start goal st → best ∈ open st → goal ≠ best →
  Inv start goal (close st best).
Proof.
  intros HI Hb Hg. split; simpl.
  - apply NoDup_set_delete, HI.
  - intros n [Hn Hne]%elem_of_set_delete.
    apply (inv_disjoint _ _ _ HI) in Hn. set_solver.
  - intros n. rewrite elem_of_set_delete, (inv_dom _ _ _ HI).
    rewrite elem_of_union, elem_of_singleton.
    destruct (decide (n = best)); naive_solver.
  - apply (inv_total _ _ _ HI).
  - apply (inv_came _ _ _ HI).
  - apply (inv_link_num _ _ _ HI).
  - apply (inv_total_num _ _ _ HI).
  - pose proof (inv_goal _ _ _ HI). set_solver.
  - rewrite elem_of_set_delete, elem_of_union, elem_of_singleton.
    destruct (inv_start _ _ _ HI); destruct (decide (start = best)); naive_solver.
  - rewrite (inv_iterations _ _ _ HI). f_equal.
    rewrite size_union, size_singleton; [done|].
    apply (inv_disjoint _ _ _ HI) in Hb. set_solver.
Qed.

Lemma InvAt_step c c' :
  InvAt start goal c → step this start goal c c' → InvAt start goal c'.
Proof.
  intros [HI Hpt] Hstep. destruct Hstep; simpl in *.
  - split; [done|]. split; [by eapply select_best_elem | done].
  - destruct Hpt as [Hb Hg].
    destruct (Inv_relax_link _ _ _ _ _ _ HI Hb H) as [? ?]. done.
  - destruct Hpt as [Hb Hg]. split; [by apply Inv_close | done].
Qed.

Lemma InvAt_steps c c' :
  InvAt start goal c → rtc (step this start goal) c c' → InvAt start goal c'.
Proof. intros HI Hs. induction Hs; [done|]. eauto using InvAt_step. Qed.

Lemma InvAt_reachable w0 c :
  reachable this start goal w0 c → InvAt start goal c.
Proof. apply InvAt_steps. split; [apply Inv_init | done]. Qed.

End Invariant.

(** ** Results of [findPath] *)

Section Results.

Context {W Err : Type}.
Variable this : AStar W Err.
Variables start goal : Node.

Lemma select_best_init n : select_best (totalCosts (init n)) (open (init n)) = Some n.
Proof. simpl. by rewrite set_add_nil. Qed.

Lemma set_delete_singleton n : set_delete n [n] = [].
Proof.
  unfold set_delete. rewrite filter_cons, decide_False by (by intros ?). done.
Qed.

Lemma findPath_Return fuel w r w' :
  findPath this start goal fuel w = (Return r, w') →
  (∃ st w1, reachable this start goal w (AtLoopHead, st, w1)
     ∧ select_best (totalCosts st) (open st) = None
     ∧ r = not_found st)
  ∨ (∃ st path, reachable this start goal w (AtLoopHead, st, w')
     ∧ select_best (totalCosts st) (open st) = Some goal
     ∧ trace_back (Err:=Err) fuel (cameFrom st) (cameFrom st !! goal) [] = Return path
     ∧ r = found_path st goal path).
Proof.
  unfold findPath. intros ([p|[best st]] & w1 & H1 & H2)%bind_Return.
  - apply ret_Return in H2 as [-> ->].
    apply search_NotFound in H1 as (st & Hr & -> & Hs). left. eauto.
  - apply search_Break in H1 as (Hr & <- & Hs).
    apply bind_Return in H2 as (path & w2 & H2 & H3).
    unfold lift in H2. injection H2 as H2 <-.
    apply ret_Return in H3 as [<- <-]. right. eauto 10.
Qed.

End Results.

(** C4: whenever [findPath] returns a [Path], its [cost] and [path] fields
    are present exactly when [found] is true: a found result carries both,
    a not-found result carries neither. *)
Theorem cost_and_path_iff_found {W Err : Type} (this : AStar W Err)
    (start goal : Node) (fuel : nat) (w w' : W) (r : Path.t) :
  findPath this start goal fuel w = (Return r, w') →
  (Path.found r = true ∧ is_Some (Path.cost r) ∧ is_Some (Path.path r))
  ∨ (Path.found r = false ∧ Path.cost r = None ∧ Path.path r = None).
Proof.
  intros [(st & w1 & Hr & Hs & ->)|(st & path & Hr & Hs & Ht & ->)]%findPath_Return.
  - right. done.
  - left. simpl. split_and!; [done | | by eauto].
    apply InvAt_reachable in Hr as [HI _]. simpl in HI.
    apply (inv_dom _ _ _ HI). left. by eapply select_best_elem.
Qed.


(** C6: when the start is not the goal and the expander returns no link
    for the start, [findPath] returns [{found: false, iterations: 2}]. *)
Theorem findPath_no_links_from_start {W Err : Type} (this : AStar W Err)
    (start goal : Node) (fuel : nat) (w w' : W) :
  start ≠ goal →
  calculateLinksForNode this start w = (inr [], w') →
  findPath this start goal (S (S fuel)) w
  = (Return {| Path.found := false;
               Path.iterations := 2;
               Path.cost := None;
               Path.path := None |}, w').
Proof.
  intros Hne Hlinks.
  assert (iteration this start goal (init start) w
          = (Return (Continue (close (init start) start)), w')) as H1.
  { unfold iteration. rewrite select_best_init, bool_decide_eq_false_2 by done.
    erewrite bind_Return_intro by (apply await_Return; exact Hlinks). done. }
  assert (iteration this start goal (close (init start) start) w'
          = (Return (ReturnNotFound (not_found (close (init start) start))), w')) as H2.
  { unfold iteration. cbn [close init open totalCosts].
    by rewrite set_add_nil, set_delete_singleton. }
  assert (search this start goal (S (S fuel)) (init start) w
          = (Return (inl (not_found (close (init start) start))), w')) as H3.
  { cbn [search]. erewrite bind_Return_intro by exact H1.
    cbn beta iota. cbn [search].
    erewrite bind_Return_intro by exact H2. done. }
  unfold findPath. erewrite bind_Return_intro by exact H3. done.
Qed.


(** ** Finality of closed nodes *)

Section ClosedFinal.

Context {W Err : Type}.
Variable this : AStar W Err.
Variables start goal : Node.

Lemma frozen_refl n st :
  Inv start goal st → n ∈ closed st → frozen n st st.
Proof.
  intros HI Hn. split_and!; [done | | done..].
  intros Ho. by apply (inv_disjoint _ _ _ HI) in Ho.
Qed.

Lemma frozen_trans n st1 st2 st3 :
  frozen n st1 st2 → frozen n st2 st3 → frozen n st1 st3.
Proof.
  intros (? & ? & H1 & H2 & H3) (? & ? & H4 & H5 & H6).
  split_and!; [done | done | congruence..].
Qed.

Lemma frozen_relax_link best st link w st' w' n :
  Inv start goal st → n ∈ closed st →
  relax_link this start best st link w = (Return st', w') →
  frozen n st st'.
Proof.
  intros HI Hn [(Hc & -> & ->)|[(Hc & Hu & -> & ->)|(Hc & Hu & h & Hh & ->)]]%relax_link_Return.
  - by apply frozen_refl.
  - split_and!; simpl; [done | | done..].
    intros [Heq|Ho]%elem_of_set_add; [by subst|].
    by apply (inv_disjoint _ _ _ HI) in Ho.
  - assert (to link ≠ n) by (by intros <-).
    split_and!; simpl; [done | | by rewrite lookup_insert_ne..].
    intros [Heq|Ho]%elem_of_set_add; [by subst|].
    by apply (inv_disjoint _ _ _ HI) in Ho.
Qed.

Lemma frozen_step c c' n :
  InvAt start goal c → step this start goal c c' →
  n ∈ closed c.1.2 → frozen n c.1.2 c'.1.2.
Proof.
  intros [HI Hpt] Hstep Hn. destruct Hstep; simpl in *.
  - by apply frozen_refl.
  - by eapply frozen_relax_link.
  - split_and!; simpl; [set_solver | | done..].
    intros [Ho _]%elem_of_set_delete.
    by apply (inv_disjoint _ _ _ HI) in Ho.
Qed.

Lemma frozen_steps c c' n :
  InvAt start goal c → rtc (step this start goal) c c' →
  n ∈ closed c.1.2 → frozen n c.1.2 c'.1.2.
Proof.
  intros HI Hs Hn. induction Hs as [c|c1 c2 c3 H12 H23 IH].
  - apply frozen_refl; [apply HI | done].
  - pose proof (frozen_step _ _ _ HI H12 Hn) as Hf.
    eapply frozen_trans; [exact Hf|].
    apply IH; [by eapply InvAt_step | apply Hf].
Qed.

End ClosedFinal.

(** C2: from any point of any execution on, a node that is in [closed]
    stays in [closed], is never in [open] again, and keeps its
    [linkCosts], [totalCosts] and [cameFrom] entries, whatever links the
    later expansions yield. *)
Theorem closed_nodes_are_final {W Err : Type} (this : AStar W Err)
    (start goal : Node) (w0 : W) (c c' : point * State * W) (n : Node) :
  reachable this start goal w0 c →
  rtc (step this start goal) c c' →
  n ∈ closed c.1.2 →
  n ∈ closed c'.1.2 ∧ (n ∉ open c'.1.2)
  ∧ linkCosts c'.1.2 !! n = linkCosts c.1.2 !! n
  ∧ totalCosts c'.1.2 !! n = totalCosts c.1.2 !! n
  ∧ cameFrom c'.1.2 !! n = cameFrom c.1.2 !! n.
Proof.
  intros Hr Hs Hn. eapply frozen_steps; [|done..].
  by eapply InvAt_reachable.
Qed.

(** ** Termination of the search loop *)

Section Pending.

Context {W Err : Type}.
Variable this : AStar W Err.
Variables start goal : Node.
Variable R : Node → Link → Prop.
Hypothesis Hspec : expander_spec R this.

Lemma pending_step c c' :
  pending R c → step this start goal c c' → pending R c'.
Proof.
  intros Hp Hstep. destruct Hstep; unfold pending in *; simpl in *.
  - by eapply Hspec.
  - by apply Forall_cons in Hp as [_ ?].
  - done.
Qed.

Lemma pending_steps c c' :
  pending R c → rtc (step this start goal) c c' → pending R c'.
Proof. intros Hp Hs. induction Hs; [done|]. eauto using pending_step. Qed.

End Pending.


Section Termination.

Context {W Err : Type}.
Variable this : AStar W Err.
Variables start goal : Node.
Variable U : list Node.
Hypothesis Hfinite : expander_spec (λ _ l, to l ∈ U) this.

Lemma reached_relax_link best st link w st' w' :
  to link ∈ U →
  reached st ⊆ universe start U →
  relax_link this start best st link w = (Return st', w') →
  reached st' ⊆ universe start U.
Proof.
  unfold reached.
  intros HU Hs [(Hc & -> & ->)|[(Hc & Hu & -> & ->)|(Hc & Hu & h & Hh & ->)]]%relax_link_Return;
    simpl; [done..|].
  rewrite dom_insert_L. unfold universe in *. set_solver.
Qed.

Lemma reached_step c c' :
  pending (λ _ l, to l ∈ U) c →
  reached c.1.2 ⊆ universe start U → step this start goal c c' →
  reached c'.1.2 ⊆ universe start U.
Proof.
  intros Hp Hs Hstep. destruct Hstep; unfold pending in *; simpl in *.
  - done.
  - apply Forall_cons in Hp as [? _]. by eapply reached_relax_link.
  - done.
Qed.

Lemma reached_steps c c' :
  pending (λ _ l, to l ∈ U) c →
  reached c.1.2 ⊆ universe start U → rtc (step this start goal) c c' →
  reached c'.1.2 ⊆ universe start U.
Proof.
  intros Hp Hs Hsteps. induction Hsteps as [|c1 c2 c3 H12 H23 IH]; [done|].
  apply IH.
  - by eapply pending_step.
  - by eapply reached_step.
Qed.

Lemma reached_init : reached (init start) ⊆ universe start U.
Proof.
  unfold reached, universe. simpl. rewrite dom_insert_L. set_solver.
Qed.






End Termination.

(** ** Chains of [cameFrom] entries *)

Lemma chain_mono cf (F G : Node → Prop) n e p :
  (∀ m, F m → G m) → chain cf F n e p → chain cf G n e p.
Proof.
  intros HFG Hc. induction Hc as [n Hn|n e l p Hn HF Hc IH].
  - by apply chain_null.
  - apply chain_link; auto.
Qed.

Lemma chain_insert cf (F : Node → Prop) n e p v x :
  chain cf F n e p → n ≠ v → ¬ F v → chain (<[v := x]> cf) F n e p.
Proof.
  intros Hc Hn Hv. induction Hc as [n Hn'|n e l p Hn' HF Hc IH].
  - apply chain_null. by rewrite lookup_insert_ne.
  - apply chain_link; [by rewrite lookup_insert_ne | done |].
    apply IH. intros Heq. by rewrite Heq in HF.
Qed.

(** The loop at lines 153-155 follows the chain and returns its links. *)
Lemma trace_back_chain {Err : Type} cf F n e p :
  chain cf F n e p →
  ∀ fuel acc, (length p < fuel)%nat →
    trace_back (Err:=Err) fuel cf (cf !! n) acc = Return (p ++ acc).
Proof.
  intros Hc. induction Hc as [n Hn|n e l p Hn HF Hc IH]; intros fuel acc Hf.
  - destruct fuel as [|fuel]; [simpl in Hf; lia|]. simpl. by rewrite Hn.
  - destruct fuel as [|fuel]; [simpl in Hf; lia|]. simpl. rewrite Hn.
    rewrite length_app in Hf. simpl in Hf.
    rewrite IH by lia. by rewrite <- app_assoc.
Qed.

Lemma trace_back_chain_nil {Err : Type} cf F n e p fuel :
  chain cf F n e p → (length p < fuel)%nat →
  trace_back (Err:=Err) fuel cf (cf !! n) [] = Return p.
Proof.
  intros Hc Hf. rewrite (trace_back_chain cf F n e p Hc) by done.
  by rewrite app_nil_r.
Qed.

Lemma trace_back_mono {Err : Type} cf fuel fuel' prev acc (p : list Link) :
  trace_back (Err:=Err) fuel cf prev acc = Return p → (fuel ≤ fuel')%nat →
  trace_back (Err:=Err) fuel' cf prev acc = Return p.
Proof.
  revert fuel' prev acc. induction fuel as [|fuel IH]; intros fuel' prev acc; [done|].
  intros H Hle. destruct fuel' as [|fuel']; [lia|]. simpl in *.
  destruct prev as [[l|]|]; [|done..]. apply IH; [done | lia].
Qed.

Section Chains.

Context {W Err : Type}.
Variable this : AStar W Err.
Variables start goal : Node.
Variable P : Link → Prop.

Lemma ChainInv_init (w : W) : ChainInv P start (AtLoopHead, init start, w).
Proof.
  split; simpl.
  - by rewrite lookup_insert_eq.
  - by rewrite lookup_insert_eq.
  - intros n. destruct (decide (n = start)) as [->|Hn]; [done|].
    by rewrite lookup_insert_ne, lookup_empty.
  - right. by rewrite set_add_nil.
  - intros n l. destruct (decide (n = start)) as [->|Hn].
    + by rewrite lookup_insert_eq.
    + by rewrite lookup_insert_ne, lookup_empty.
  - intros n. destruct (decide (n = start)) as [->|Hn].
    + intros _. exists []. apply chain_null. by rewrite lookup_insert_eq.
    + rewrite lookup_insert_ne, lookup_empty by done. by intros [? ?].
Qed.

(** An honest self-link never relaxes the node being expanded. *)
Lemma needs_update_not_best st best link :
  Inv start goal st → best ∈ open st → honest_link best link →
  needs_update st link (new_link_cost best st link) = true →
  to link ≠ best.
Proof.
  intros HI Hb [Hfrom Hself] Hu Heq.
  destruct (new_link_cost_Num start goal best st link HI Hb) as (c & Hc & Hn).
  unfold needs_update in Hu. rewrite Hn, Heq, Hc in Hu.
  rewrite bool_decide_eq_true_2 in Hu by eauto. simpl in Hu.
  unfold js_gt, js_lt in Hu. simpl in Hu.
  apply bool_decide_eq_true in Hu. specialize (Hself Heq). lia.
Qed.

Lemma ChainInv_step c c' :
  InvAt start goal c → pending (honest_P P) c → ChainInv P start c →
  step this start goal c c' → ChainInv P start c'.
Proof.
  intros [HI Hpt] Hp HC Hstep.
  destruct Hstep as [st w best links w' Hsel Hg Hl
                    |st w best link rest st' w' Hr
                    |st w best]; unfold pending in Hp; simpl in *.
  - (* best is selected: the frozen set gains best *)
    destruct HC as [H1 H2 H3 H4 H5 H6]; simpl in *.
    split; simpl; [done..| | |].
    + left. destruct H4 as [H4|[_ H4]]; unfold frozen_set in *; simpl in *.
      * set_solver.
      * apply select_best_elem in Hsel. rewrite H4 in Hsel.
        apply list_elem_of_singleton in Hsel. set_solver.
    + intros n l Hn. destruct (H5 n l Hn) as (? & ? & ? & ?).
      split_and!; [done | | done..].
      unfold frozen_set in *; simpl in *. set_solver.
    + intros n Hn. destruct (H6 n Hn) as [p Hp'].
      exists p. eapply chain_mono; [|exact Hp'].
      unfold frozen_set; simpl. set_solver.
  - (* one link is processed *)
    destruct Hpt as [Hb Hg]. apply Forall_cons in Hp as [[Hh HP] _].
    destruct HC as [H1 H2 H3 H4 H5 H6]; simpl in *.
    unfold frozen_set in *; simpl in *.
    destruct H4 as [H4|[? _]]; [|done].
    apply relax_link_Return in Hr
      as [(Hc & -> & ->)|[(Hc & Hu & -> & ->)|(Hc & Hu & h & Hh' & ->)]].
    + split; simpl; [done..| by left | done | done].
    + split; simpl; [done..| by left | done | done].
    + pose proof (needs_update_not_best st best link HI Hb Hh Hu) as Hnb.
      assert (to link ∉ ({[best]} ∪ closed st : gset Node)) as HnF by set_solver.
      assert (to link ≠ start) as Hns by (by intros Heq; rewrite Heq in HnF).
      destruct (new_link_cost_Num start goal best st link HI Hb) as (cb & Hcb & Hnew).
      split; simpl; unfold frozen_set; simpl.
      * by rewrite lookup_insert_ne.
      * by rewrite lookup_insert_ne.
      * intros n. destruct (decide (n = to link)) as [->|Hn].
        -- by rewrite lookup_insert_eq.
        -- rewrite lookup_insert_ne by done. apply H3.
      * by left.
      * intros n l. destruct (decide (n = to link)) as [->|Hn].
        -- rewrite lookup_insert_eq. intros [= <-].
           destruct Hh as [Hfrom _]. rewrite Hfrom.
           split_and!; [done | set_solver | done |].
           exists cb. rewrite lookup_insert_ne by done.
           rewrite lookup_insert_eq. by rewrite Hnew.
        -- rewrite lookup_insert_ne by done. intros Hl.
           destruct (H5 n l Hl) as (? & HF & ? & c0 & Hc0 & Hc1).
           split_and!; [done..|]. exists c0.
           assert (to link ≠ from l) by (intros Heq; by rewrite Heq in HnF).
           assert (to link ≠ n) by (by apply not_eq_sym).
           by rewrite !lookup_insert_ne.
      * intros n. destruct (decide (n = to link)) as [->|Hn].
        -- intros _.
           destruct (H6 best) as [p Hp'].
           { apply (inv_came _ _ _ HI), (inv_dom _ _ _ HI). by left. }
           exists (p ++ [link]). destruct Hh as [Hfrom _].
           apply chain_link.
           ++ by rewrite lookup_insert_eq.
           ++ rewrite Hfrom. set_solver.
           ++ rewrite Hfrom. apply chain_insert; [done | done | done].
        -- rewrite lookup_insert_ne by done. intros Hn'.
           destruct (H6 n Hn') as [p Hp'].
           exists p. by apply chain_insert.
  - (* best is closed: the frozen set is the new closed set *)
    destruct HC as [H1 H2 H3 H4 H5 H6]; simpl in *.
    unfold frozen_set in *; simpl in *.
    split; simpl; [done..| | done | done].
    destruct H4 as [H4|[? _]]; [by left | done].
Qed.

Hypothesis Hhonest : expander_spec (honest_P P) this.

Lemma ChainInv_steps c c' :
  InvAt start goal c → pending (honest_P P) c → ChainInv P start c →
  rtc (step this start goal) c c' → ChainInv P start c'.
Proof.
  intros HI Hp HC Hs. induction Hs as [|c1 c2 c3 H12 H23 IH]; [done|].
  apply IH.
  - by eapply InvAt_step.
  - by eapply pending_step.
  - by eapply ChainInv_step.
Qed.

Lemma ChainInv_reachable w0 c :
  reachable this start goal w0 c → ChainInv P start c.
Proof.
  apply ChainInv_steps.
  - split; [apply Inv_init | done].
  - done.
  - apply ChainInv_init.
Qed.

End Chains.

(** ** More iterations change nothing once the loop has ended *)

Section Fuel.

Context {W Err : Type}.
Variable this : AStar W Err.
Variables start goal : Node.






End Fuel.



Lemma honest_link_honest_P {W Err : Type} (this : AStar W Err) :
  expander_spec honest_link this →
  expander_spec (honest_P (λ _, True)) this.
Proof.
  intros H n w links w' Hl. eapply Forall_impl; [by eapply H|].
  intros l Hh. by split.
Qed.

(** ** Termination of [findPath] *)

Section Outcome.

Context {W Err : Type}.
Variable this : AStar W Err.
Variables start goal : Node.





(** A pass that falls through has moved [best] from [open] to
    [closed]. *)
Lemma iteration_closes_best st w st' w' :
  Inv start goal st →
  iteration this start goal st w = (Return (Continue st'), w') →
  ∃ best,
    select_best (totalCosts st) (open st) = Some best
    ∧ best ∈ open st ∧ (best ∉ closed st)
    ∧ closed st' = {[best]} ∪ closed st ∧ (best ∉ open st').
Proof.
  intros HI. unfold iteration.
  destruct (select_best _ _) as [best|] eqn:Hsel; [|by intros [? ?]%ret_Return].
  case_bool_decide; [by intros [? ?]%ret_Return|].
  intros (links & w1 & _ & H2)%bind_Return.
  apply bind_Return in H2 as (st1 & w2 & H2 & H3).
  apply ret_Return in H3 as [[= <-] <-].
  apply relax_links_closed in H2 as [Hcl _].
  pose proof (select_best_elem _ _ _ Hsel) as Hb.
  exists best. simpl. rewrite Hcl. split_and!; [done | done | | done |].
  - by apply (inv_disjoint _ _ _ HI).
  - intros [_ ?]%elem_of_set_delete. done.
Qed.


Variable U : list Node.
Hypothesis Hfinite : expander_spec (λ _ l, to l ∈ U) this.


Hypothesis Hhonest : expander_spec honest_link this.


End Outcome.



(** ** Paths *)

Lemma is_path_app g a b c p q :
  is_path g a b p → is_path g b c q → is_path g a c (p ++ q).
Proof.
  revert a. induction p as [|l p IH]; intros a; simpl.
  - by intros ->.
  - intros (? & ? & ?) ?. split_and!; [done..|]. by apply IH.
Qed.

Lemma is_path_snoc g a l p :
  is_path g a (from l) p → l ∈ g → is_path g a (to l) (p ++ [l]).
Proof. intros Hp Hl. eapply is_path_app; [exact Hp|]. by simpl. Qed.



(** A path that leaves a set of nodes has a first link that leaves it. *)
Lemma path_crossing g (C : gset Node) a b p :
  is_path g a b p → a ∈ C → b ∉ C →
  ∃ p1 l p2,
    p = p1 ++ l :: p2 ∧ is_path g a (from l) p1 ∧ l ∈ g
    ∧ from l ∈ C ∧ (to l ∉ C) ∧ is_path g (to l) b p2.
Proof.
  revert a. induction p as [|l p IH]; intros a; simpl.
  - by intros -> ?.
  - intros (Hl & <- & Hp) Ha Hb.
    destruct (decide (to l ∈ C)) as [Hin|Hout].
    + destruct (IH _ Hp Hin Hb) as (p1 & l' & p2 & -> & H1 & H2 & H3 & H4 & H5).
      exists (l :: p1), l', p2. simpl. split_and!; done.
    + exists [], l, p. simpl. split_and!; done.
Qed.

(** ** Search on a graph with a consistent heuristic *)

Lemma graph_links_spec g n l : l ∈ graph_links g n ↔ l ∈ g ∧ from l = n.
Proof. unfold graph_links. rewrite list_elem_of_filter. tauto. Qed.

Lemma graph_astar_links g H n (w : unit) :
  calculateLinksForNode (graph_astar g H) n w = (inr (graph_links g n), w).
Proof. done. Qed.


Section Dijkstra.

Variable g : list Link.
Variable H : Node → Node → Z.
Variables start goal : Node.
Hypothesis Hcons : consistent g (H start).









End Dijkstra.

(** ** What [findPath] returns on a graph *)

Lemma graph_expander_finite g H :
  expander_spec (λ _ l, to l ∈ map to g) (graph_astar g H).
Proof.
  intros n w links w' Heq. rewrite graph_astar_links in Heq.
  injection Heq as <- <-. apply Forall_forall. intros l [Hl _]%graph_links_spec.
  apply list_elem_of_fmap. eauto.
Qed.



Section Optimality.

Variable g : list Link.
Variable H : Node → Node → Z.
Variables start goal : Node.
Hypothesis Hcons : consistent g (H start).




End Optimality.



(** ** Errors of the collaborators *)

Section Logged.

Context {W Err : Type}.
Variable this : AStar W Err.
Variables start goal : Node.

Lemma clean_ret {A} (a : A) : clean (W:=W) (Err:=Err) (ret a).
Proof.
  intros w log o w' log' [= <- <- <-]. exists []. split; [by rewrite app_nil_r|].
  left. constructor.
Qed.

Lemma clean_lift {A} (o : outcome Err A) :
  (∀ e, o ≠ Raise (CollaboratorError e)) → clean (W:=W) (lift o).
Proof.
  intros _ w log o' w' log' [= <- <- <-]. exists []. split; [by rewrite app_nil_r|].
  left. constructor.
Qed.

Lemma clean_bind {A B} (m : M (W * list (call Err)) Err A)
    (k : A → M (W * list (call Err)) Err B) :
  clean m → (∀ a, clean (k a)) → clean (bind m k).
Proof.
  intros Hm Hk w log o w' log'. unfold bind.
  destruct (m (w, log)) as [o1 [w1 log1]] eqn:H1.
  destruct (Hm _ _ _ _ _ H1) as (ext1 & -> & Hext1).
  destruct o1 as [a|e|].
  - intros H2. destruct (Hk a _ _ _ _ _ H2) as (ext2 & -> & Hext2).
    exists (ext1 ++ ext2). split; [by rewrite app_assoc|].
    destruct Hext1 as [Hok1|(ext' & c & e & _ & _ & _ & [=])].
    destruct Hext2 as [Hok2|(ext' & c & e & -> & Hok2 & Hc & ->)].
    + left. by apply Forall_app.
    + right. exists (ext1 ++ ext'), c, e.
      split_and!; [by rewrite app_assoc | by apply Forall_app | done..].
  - intros [= <- <- <-]. exists ext1. split; [done|].
    destruct Hext1 as [?|(ext' & c & e0 & ? & ? & ? & [= ->])]; [by left|].
    right. by exists ext', c, e0.
  - intros [= <- <- <-]. exists ext1. split; [done|].
    destruct Hext1 as [?|(ext' & c & e0 & ? & ? & ? & [=])]. by left.
Qed.

Lemma clean_await_links node :
  clean (await (calculateLinksForNode (logged this) node)).
Proof.
  intros w log o w' log'. unfold await. simpl.
  destruct (calculateLinksForNode this node w) as [[e|links] w1].
  - intros [= <- <- <-]. eexists. split; [done|]. right.
    exists [], (CallLinks node (inl e)), e. split_and!; [done | constructor | done..].
  - intros [= <- <- <-]. eexists. split; [done|]. left.
    by apply Forall_singleton.
Qed.

Lemma clean_await_heuristic a b :
  clean (await (calculateHeuristicCostToTraverseLink (logged this) a b)).
Proof.
  intros w log o w' log'. unfold await. simpl.
  destruct (calculateHeuristicCostToTraverseLink this a b w) as [[e|h] w1].
  - intros [= <- <- <-]. eexists. split; [done|]. right.
    exists [], (CallHeuristic a b (inl e)), e.
    split_and!; [done | constructor | done..].
  - intros [= <- <- <-]. eexists. split; [done|]. left.
    by apply Forall_singleton.
Qed.

Lemma clean_relax_link best st link :
  clean (relax_link (logged this) start best st link).
Proof.
  unfold relax_link. case_bool_decide; [apply clean_ret|].
  apply clean_bind; [|intros; apply clean_ret].
  destruct (needs_update _ _ _); [|apply clean_ret].
  apply clean_bind; [apply clean_await_heuristic | intros; apply clean_ret].
Qed.

Lemma clean_relax_links best links st :
  clean (relax_links (logged this) start best links st).
Proof.
  revert st. induction links as [|l ls IH]; intros st; simpl.
  - apply clean_ret.
  - apply clean_bind; [apply clean_relax_link | done].
Qed.

Lemma clean_iteration st : clean (iteration (logged this) start goal st).
Proof.
  unfold iteration. destruct (select_best _ _) as [best|]; [|apply clean_ret].
  case_bool_decide; [apply clean_ret|].
  apply clean_bind; [apply clean_await_links|]. intros links.
  apply clean_bind; [apply clean_relax_links | intros; apply clean_ret].
Qed.

Lemma clean_search fuel st : clean (search (logged this) start goal fuel st).
Proof.
  revert st. induction fuel as [|fuel IH]; intros st; simpl.
  - by apply clean_lift.
  - apply clean_bind; [apply clean_iteration|].
    intros [st1|p|b st1]; [done | apply clean_ret..].
Qed.

Lemma clean_findPath fuel : clean (findPath (logged this) start goal fuel).
Proof.
  unfold findPath. apply clean_bind; [apply clean_search|].
  intros [p|[best st]]; [apply clean_ret|].
  apply clean_bind; [|intros; apply clean_ret].
  intros w log o w' log' [= <- <- <-]. exists []. split; [by rewrite app_nil_r|].
  left. constructor.
Qed.

End Logged.

(** ** Logging changes nothing but the log *)

Section Erasure.

Context {W Err : Type}.
Variable this : AStar W Err.
Variables start goal : Node.

Lemma erases_ret {A} (a : A) : erases (W:=W) (Err:=Err) (ret a) (ret a).
Proof. by intros w log. Qed.

Lemma erases_lift {A} (o : outcome Err A) : erases (W:=W) (lift o) (lift o).
Proof. by intros w log. Qed.

Lemma erases_bind {A B} (m' : M (W * list (call Err)) Err A) (m : M W Err A)
    (k' : A → M (W * list (call Err)) Err B) (k : A → M W Err B) :
  erases m' m → (∀ a, erases (k' a) (k a)) → erases (bind m' k') (bind m k).
Proof.
  intros Hm Hk w log. unfold bind. destruct (Hm w log) as [H1 H2].
  destruct (m' (w, log)) as [o' [w1' log1]], (m w) as [o w1].
  simpl in H1, H2. subst o' w1'.
  destruct o as [a|e|]; [apply Hk | done | done].
Qed.

Lemma erases_await_links node :
  erases (await (calculateLinksForNode (logged this) node))
         (await (calculateLinksForNode this node)).
Proof.
  intros w log. unfold await. simpl.
  by destruct (calculateLinksForNode this node w) as [[e|links] w1].
Qed.

Lemma erases_await_heuristic a b :
  erases (await (calculateHeuristicCostToTraverseLink (logged this) a b))
         (await (calculateHeuristicCostToTraverseLink this a b)).
Proof.
  intros w log. unfold await. simpl.
  by destruct (calculateHeuristicCostToTraverseLink this a b w) as [[e|h] w1].
Qed.

Lemma erases_relax_link best st link :
  erases (relax_link (logged this) start best st link)
         (relax_link this start best st link).
Proof.
  unfold relax_link. case_bool_decide; [apply erases_ret|].
  apply erases_bind; [|intros; apply erases_ret].
  destruct (needs_update _ _ _); [|apply erases_ret].
  apply erases_bind; [apply erases_await_heuristic | intros; apply erases_ret].
Qed.

Lemma erases_relax_links best links st :
  erases (relax_links (logged this) start best links st)
         (relax_links this start best links st).
Proof.
  revert st. induction links as [|l ls IH]; intros st; simpl.
  - apply erases_ret.
  - apply erases_bind; [apply erases_relax_link | done].
Qed.

Lemma erases_iteration st :
  erases (iteration (logged this) start goal st) (iteration this start goal st).
Proof.
  unfold iteration. destruct (select_best _ _) as [best|]; [|apply erases_ret].
  case_bool_decide; [apply erases_ret|].
  apply erases_bind; [apply erases_await_links|]. intros links.
  apply erases_bind; [apply erases_relax_links | intros; apply erases_ret].
Qed.

Lemma erases_search fuel st :
  erases (search (logged this) start goal fuel st) (search this start goal fuel st).
Proof.
  revert st. induction fuel as [|fuel IH]; intros st; simpl.
  - apply erases_lift.
  - apply erases_bind; [apply erases_iteration|].
    intros [st1|p|b st1]; [done | apply erases_ret..].
Qed.

Lemma erases_findPath fuel :
  erases (findPath (logged this) start goal fuel) (findPath this start goal fuel).
Proof.
  unfold findPath. apply erases_bind; [apply erases_search|].
  intros [p|[best st]]; [apply erases_ret|].
  apply erases_bind; [apply erases_lift | intros; apply erases_ret].
Qed.

End Erasure.

Lemma failed_call_is_last {Err : Type} (pre post ext' : list (call Err)) c c' e :
  pre ++ c :: post = ext' ++ [c'] →
  Forall (λ c, failed c = None) ext' →
  failed c = Some e →
  post = [] ∧ c = c'.
Proof.
  intros Heq Hok Hc. destruct post as [|x post _] using rev_ind.
  - by apply app_inj_tail in Heq as [_ ?].
  - exfalso. change (pre ++ c :: post ++ [x]) with (pre ++ (c :: post) ++ [x]) in Heq.
    rewrite app_assoc in Heq. apply app_inj_tail in Heq as [<- _].
    rewrite Forall_forall in Hok. rewrite (Hok c) in Hc; [done|].
    apply elem_of_app. right. by left.
Qed.

(** C8: when a call of [calculateLinksForNode] or of
    [calculateHeuristicCostToTraverseLink] raises an error during
    [findPath], no collaborator is called after it and [findPath] throws
    that error: it returns no [Path].  The calls are observed by logging
    them, which leaves the outcome of [findPath] as it is. *)
Theorem collaborator_error_aborts {W Err : Type} (this : AStar W Err)
    (start goal : Node) (fuel : nat) (w w' : W)
    (o : outcome Err Path.t) (log pre post : list (call Err))
    (c : call Err) (e : Err) :
  findPath (logged this) start goal fuel (w, []) = (o, (w', log)) →
  log = pre ++ c :: post →
  failed c = Some e →
  post = []
  ∧ o = Raise (CollaboratorError e)
  ∧ findPath this start goal fuel w = (Raise (CollaboratorError e), w').
Proof.
  intros Hrun Hlog Hc.
  assert (post = [] ∧ o = Raise (CollaboratorError e)) as [Hpost Ho].
  { destruct (clean_findPath this start goal fuel _ _ _ _ _ Hrun)
      as (ext & Hext & [Hok|(ext' & c' & e' & -> & Hok & Hc' & ->)]).
    - simpl in Hext. rewrite <- Hext, Hlog in Hok.
      rewrite Forall_forall in Hok. rewrite (Hok c) in Hc; [done|].
      apply elem_of_app. right. by left.
    - simpl in Hext. rewrite Hlog in Hext.
      destruct (failed_call_is_last _ _ _ _ _ _ Hext Hok Hc) as [-> ->].
      split; [done|]. congruence. }
  split_and!; [done..|].
  destruct (erases_findPath this start goal fuel w []) as [H1 H2].
  rewrite Hrun in H1, H2. simpl in H1, H2. subst o w'.
  rewrite H1. by destruct (findPath this start goal fuel w).
Qed.

(** ** The test suite of the repository *)

Local Open Scope string_scope.
Local Open Scope list_scope.
Local Open Scope Z_scope.

Example test_no_links :
  findPath (graph_astar [] None) "a" "c" 10 ()
  = (Return {| Path.found := false; Path.iterations := 2;
               Path.cost := None; Path.path := None |}, ()).
Proof. vm_compute. reflexivity. Qed.

Example test_identical :
  findPath (graph_astar [] None) "a" "a" 10 ()
  = (Return {| Path.found := true; Path.iterations := 1;
               Path.cost := Some (Num 0); Path.path := Some [] |}, ()).
Proof. vm_compute. reflexivity. Qed.

Example test_one_link :
  findPath (graph_astar one_link None) "a" "b" 10 ()
  = (Return {| Path.found := true; Path.iterations := 2;
               Path.cost := Some (Num 1);
               Path.path := Some [mkLink "a" "b" 1] |}, ()).
Proof. vm_compute. reflexivity. Qed.

Example test_two_routes :
  findPath (graph_astar two_routes None) "a" "d" 10 ()
  = (Return {| Path.found := true; Path.iterations := 4;
               Path.cost := Some (Num 3);
               Path.path := Some [mkLink "a" "c" 1; mkLink "c" "d" 2] |}, ()).
Proof. vm_compute. reflexivity. Qed.

Example test_opposite_dijkstra :
  findPath (graph_astar opposite_direction None) "a" "c" 10 ()
  = (Return {| Path.found := true; Path.iterations := 7;
               Path.cost := Some (Num 15);
               Path.path := Some [mkLink "a" "b" 10; mkLink "b" "c" 5] |}, ()).
Proof. vm_compute. reflexivity. Qed.

Example test_opposite_astar :
  findPath (graph_astar opposite_direction (Some alphabet_distance)) "a" "c" 10 ()
  = (Return {| Path.found := true; Path.iterations := 3;
               Path.cost := Some (Num 15);
               Path.path := Some [mkLink "a" "b" 10; mkLink "b" "c" 5] |}, ()).
Proof. vm_compute. reflexivity. Qed.

Local Close Scope string_scope.

(** ** Helpers for concrete runs *)

Lemma passes_steps {W Err : Type} (this : AStar W Err) start goal n st w :
  rtc (step this start goal) (AtLoopHead, st, w)
      (AtLoopHead, (passes this start goal n st w).1,
                   (passes this start goal n st w).2).
Proof.
  revert st w. induction n as [|n IH]; intros st w; simpl; [done|].
  destruct (iteration this start goal st w) as [[[st1|p|b st1]|e|] w1] eqn:Hi;
    [|done..].
  etrans; [by eapply iteration_Continue | apply IH].
Qed.

Lemma passes_reachable {W Err : Type} (this : AStar W Err) start goal n w :
  reachable this start goal w
    (AtLoopHead, (passes this start goal n (init start) w).1,
                 (passes this start goal n (init start) w).2).
Proof. apply passes_steps. Qed.


Lemma graph_honest g H :
  Forall (λ l, to l = from l → 0 ≤ cost l) g →
  expander_spec honest_link (graph_astar g H).
Proof.
  intros Hg n w links w' Heq. rewrite graph_astar_links in Heq.
  injection Heq as <- <-. apply Forall_forall. intros l [Hl Hn]%graph_links_spec.
  split; [done|]. intros Hto. rewrite Forall_forall in Hg.
  apply (Hg l Hl). congruence.
Qed.



(** ** The theorems at concrete inputs *)

Local Open Scope string_scope.
Local Open Scope list_scope.
Local Open Scope Z_scope.


(** C4 on the graph of the fourth test. *)
Lemma cost_and_path_iff_found_witness :
  findPath (graph_astar two_routes None) "a" "d" 10 ()
  = (Return {| Path.found := true; Path.iterations := 4;
               Path.cost := Some (Num 3);
               Path.path := Some [mkLink "a" "c" 1; mkLink "c" "d" 2] |}, ())
  ∧ ((true = true ∧ is_Some (Some (Num 3))
      ∧ is_Some (Some [mkLink "a" "c" 1; mkLink "c" "d" 2]))
     ∨ (true = false ∧ Some (Num 3) = None
        ∧ Some [mkLink "a" "c" 1; mkLink "c" "d" 2] = None)).
Proof.
  assert (findPath (graph_astar two_routes None) "a" "d" 10 ()
          = (Return {| Path.found := true; Path.iterations := 4;
                       Path.cost := Some (Num 3);
                       Path.path := Some [mkLink "a" "c" 1; mkLink "c" "d" 2] |}, ()))
    as Hrun by (vm_compute; reflexivity).
  split; [exact Hrun|].
  exact (cost_and_path_iff_found _ _ _ _ _ _ _ Hrun).
Defined.

(** C6 on the first test: no link at all. *)
Lemma findPath_no_links_from_start_witness :
  "a" ≠ "c"
  ∧ calculateLinksForNode (graph_astar [] None) "a" () = (inr [], ())
  ∧ findPath (graph_astar [] None) "a" "c" 2 ()
    = (Return {| Path.found := false; Path.iterations := 2;
                 Path.cost := None; Path.path := None |}, ()).
Proof.
  assert ("a" ≠ "c") as Hne by discriminate.
  split; [exact Hne|]. split; [reflexivity|].
  apply (findPath_no_links_from_start (graph_astar [] None) "a" "c" 0 () ()).
  - exact Hne.
  - reflexivity.
Defined.


(** C2 on the detour graph: ["b"] is closed at cost 12 after two passes;
    the third pass finds the link from ["a"] to ["b"], a candidate of cost
    11, and leaves the entries of ["b"] as they are. *)
Lemma closed_nodes_are_final_witness :
  let this := graph_astar late_detour (Some detour_estimate) in
  let c := (AtLoopHead, (passes this "s" "g" 2 (init "s") ()).1, ()) in
  let c' := (AtLoopHead, (passes this "s" "g" 3 (init "s") ()).1, ()) in
  reachable this "s" "g" () c
  ∧ rtc (step this "s" "g") c c'
  ∧ "b" ∈ closed c.1.2
  ∧ "b" ∈ closed c'.1.2 ∧ ("b" ∉ open c'.1.2)
  ∧ linkCosts c'.1.2 !! "b" = linkCosts c.1.2 !! "b"
  ∧ totalCosts c'.1.2 !! "b" = totalCosts c.1.2 !! "b"
  ∧ cameFrom c'.1.2 !! "b" = cameFrom c.1.2 !! "b".
Proof.
  intros this c c'.
  assert (reachable this "s" "g" () c) as Hr.
  { pose proof (passes_reachable this "s" "g" 2 ()) as H.
    by destruct (passes this "s" "g" 2 (init "s") ()).2. }
  assert (rtc (step this "s" "g") c c') as Hs.
  { pose proof (passes_steps this "s" "g" 1 c.1.2 ()) as H.
    replace (passes this "s" "g" 1 c.1.2 ())
      with (passes this "s" "g" 3 (init "s") ()) in H
      by (vm_compute; reflexivity).
    by destruct (passes this "s" "g" 3 (init "s") ()).2. }
  assert ("b" ∈ closed c.1.2) as Hb
    by (apply (bool_decide_unpack _); vm_compute; exact I).
  split; [exact Hr|]. split; [exact Hs|]. split; [exact Hb|].
  exact (closed_nodes_are_final this "s" "g" () c c' "b" Hr Hs Hb).
Defined.

Local Close Scope string_scope.

Local Open Scope string_scope.
Local Open Scope list_scope.
Local Open Scope Z_scope.

(** In the third pass on the detour graph ["a"] is expanded at cost 10, so
    that its link to ["b"] is a candidate of cost 11; the entry of ["b"]
    stays 12. *)
Example late_detour_keeps_closed_entry :
  let this := graph_astar late_detour (Some detour_estimate) in
  let st := (passes this "s" "g" 2 (init "s") ()).1 in
  let st' := (passes this "s" "g" 3 (init "s") ()).1 in
  select_best (totalCosts st) (open st) = Some "a"
  ∧ new_link_cost "a" st (mkLink "a" "b" 1) = Num 11
  ∧ linkCosts st !! "b" = Some (Num 12)
  ∧ linkCosts st' !! "b" = Some (Num 12).
Proof. vm_compute. done. Qed.


(** C8 with an expander that fails on ["b"]: the search expands ["a"],
    then ["c"], then ["b"], and throws what the call on ["b"] threw. *)
Lemma collaborator_error_aborts_witness :
  let log := [CallLinks "a" (inr (graph_links two_routes "a"));
              CallHeuristic "a" "b" (inr 0);
              CallHeuristic "a" "c" (inr 0);
              CallLinks "c" (inr (graph_links two_routes "c"));
              CallHeuristic "a" "d" (inr 0)] in
  let c := CallLinks (Err:=string) "b" (inl "unreachable store") in
  findPath (logged failing_expander) "a" "e" 10 ((), [])
  = (Raise (CollaboratorError "unreachable store"), ((), log ++ [c]))
  ∧ failed c = Some "unreachable store"
  ∧ ([] = [] :> list (call string))
  ∧ Raise (A:=Path.t) (CollaboratorError "unreachable store")
    = Raise (CollaboratorError "unreachable store")
  ∧ findPath failing_expander "a" "e" 10 ()
    = (Raise (CollaboratorError "unreachable store"), ()).
Proof.
  intros log c.
  assert (findPath (logged failing_expander) "a" "e" 10 ((), [])
          = (Raise (CollaboratorError "unreachable store"), ((), log ++ [c])))
    as Hrun by (vm_compute; reflexivity).
  assert (failed c = Some "unreachable store") as Hc by reflexivity.
  split; [exact Hrun|]. split; [exact Hc|].
  exact (collaborator_error_aborts failing_expander "a" "e" 10 () ()
           _ _ log [] c "unreachable store" Hrun eq_refl Hc).
Defined.

Local Close Scope string_scope.

Local Open Scope string_scope.
Local Open Scope list_scope.
Local Open Scope Z_scope.



(** ** Where the claims fail *)






Local Close Scope string_scope.

Local Open Scope string_scope.
Local Open Scope list_scope.
Local Open Scope Z_scope.







Local Close Scope string_scope.

(** * Further properties of [findPath] *)

(** ** The returned path, whatever the heuristic *)


Lemma chain_functional cf F F' n e e' p p' :
  chain cf F n e p → chain cf F' n e' p' → p = p' ∧ e = e'.
Proof.
  intros Hc. revert e' p'.
  induction Hc as [n Hn|n e l p Hn HF Hc IH]; intros e' p' Hc'.
  - destruct Hc' as [n Hn'|n e' l' p' Hn' HF' Hc']; [done | congruence].
  - destruct Hc' as [n Hn'|n e' l' p' Hn' HF' Hc']; [congruence|].
    assert (l' = l) as -> by congruence.
    destruct (IH _ _ Hc') as [-> ->]. done.
Qed.

Lemma chain_from_frozen cf (F : Node → Prop) n e p :
  chain cf F n e p → Forall (λ l, F (from l)) p.
Proof.
  intros Hc. induction Hc as [n Hn|n e l p Hn HF Hc IH]; [constructor|].
  apply Forall_app. split; [done | by apply Forall_singleton].
Qed.


Section ReturnedPath.

Context {W Err : Type}.
Variable this : AStar W Err.
Variables start goal : Node.
Variable P : Link → Prop.
Hypothesis Hhonest : expander_spec (honest_P P) this.


(** A link of a chain is the [cameFrom] entry of its target, and the part
    of the chain up to it is the chain of its target. *)
Lemma chain_prefix (c : point * State * W) F n e p p1 l p2 :
  ChainInv P start c →
  chain (cameFrom c.1.2) F n e p → p = p1 ++ l :: p2 →
  chain (cameFrom c.1.2) F (to l) e (p1 ++ [l])
  ∧ chain (cameFrom c.1.2) F (from l) e p1.
Proof.
  intros HC Hc. revert p1 l p2.
  induction Hc as [n Hn|n e l0 p Hn HF Hc IH]; intros p1 l p2 Heq.
  - by destruct p1.
  - destruct p2 as [|l2 p2 _] using rev_ind.
    + apply app_inj_tail in Heq as [-> ->].
      destruct (ci_link _ _ _ HC n l Hn) as (<- & _).
      split; [by apply chain_link | done].
    + change (p1 ++ l :: p2 ++ [l2]) with (p1 ++ (l :: p2) ++ [l2]) in Heq.
      rewrite app_assoc in Heq. apply app_inj_tail in Heq as [-> ->].
      by eapply IH.
Qed.

(** No node is the source of two links of a chain, and none is the target
    of two. *)
Lemma chain_NoDup (c : point * State * W) F n e p :
  ChainInv P start c →
  chain (cameFrom c.1.2) F n e p →
  NoDup (map from p) ∧ NoDup (map to p).
Proof.
  intros HC Hc. induction Hc as [n Hn|n e l0 p Hn HF Hc IH].
  - split; constructor.
  - destruct IH as [IHf IHt]. rewrite !map_app. simpl. split.
    + apply NoDup_app. split_and!; [done | | apply NoDup_singleton].
      intros m Hm ->%list_elem_of_singleton.
      apply list_elem_of_fmap in Hm as (l & Hfrom & Hl).
      apply list_elem_of_split in Hl as (p1 & p2 & ->).
      destruct (chain_prefix _ _ _ _ _ p1 l p2 HC Hc eq_refl) as [_ H1].
      cbn [fst snd] in *. rewrite <- Hfrom in H1.
      destruct (chain_functional _ _ _ _ _ _ _ _ Hc H1) as [Heq _].
      apply (f_equal length) in Heq. rewrite length_app in Heq. simpl in Heq. lia.
    + apply NoDup_app. split_and!; [done | | apply NoDup_singleton].
      intros m Hm ->%list_elem_of_singleton.
      apply list_elem_of_fmap in Hm as (l & Hto & Hl).
      apply list_elem_of_split in Hl as (p1 & p2 & ->).
      destruct (chain_prefix _ _ _ _ _ p1 l p2 HC Hc eq_refl) as [H1 _].
      destruct (ci_link _ _ _ HC n l0 Hn) as (Hn0 & _).
      rewrite <- Hto, Hn0 in H1.
      pose proof (chain_link _ _ _ _ _ _ Hn HF Hc) as H2.
      destruct (chain_functional _ _ _ _ _ _ _ _ H1 H2) as [Heq _].
      apply (f_equal length) in Heq. rewrite !length_app in Heq.
      simpl in Heq. lia.
Qed.

(** A found result is built from the chain of the goal. *)
Lemma found_chain fuel w r w' :
  findPath this start goal fuel w = (Return r, w') →
  Path.found r = true →
  ∃ st p,
    reachable this start goal w (AtLoopHead, st, w')
    ∧ select_best (totalCosts st) (open st) = Some goal
    ∧ chain (cameFrom st) (λ m, m ∈ closed st) goal start p
    ∧ r = found_path st goal p.
Proof.
  intros [(st & w1 & Hr & Hs & ->)|(st & path & Hr & Hs & Ht & ->)]%findPath_Return;
    [done|].
  intros _.
  pose proof (InvAt_reachable _ start goal w _ Hr) as [HI _]. simpl in HI.
  pose proof (ChainInv_reachable _ start goal _ Hhonest w _ Hr) as HC.
  destruct (ci_chain _ _ _ HC goal) as [p Hp].
  { simpl. apply (inv_came _ _ _ HI), (inv_dom _ _ _ HI).
    left. by eapply select_best_elem. }
  cbn [fst snd] in Hp. unfold frozen_set in Hp. cbn [fst snd] in Hp.
  exists st, p. split_and!; [done..|].
  f_equal.
  pose proof (trace_back_chain_nil (Err:=Err) _ _ _ _ _
                (max fuel (S (length p))) Hp ltac:(lia)) as H1.
  pose proof (trace_back_mono _ fuel (max fuel (S (length p))) _ _ _ Ht
                ltac:(lia)) as H2.
  congruence.
Qed.

End ReturnedPath.


(** X2: with an honest expander and any heuristic, the returned path
    visits no node twice, and it has fewer links than the returned
    iteration count. *)
Theorem returned_path_is_simple {W Err : Type} (this : AStar W Err)
    (start goal : Node) (fuel : nat) (w w' : W) (r : Path.t) :
  expander_spec honest_link this →
  findPath this start goal fuel w = (Return r, w') →
  Path.found r = true →
  ∃ p,
    Path.path r = Some p
    ∧ NoDup (start :: map to p)
    ∧ (length p < Path.iterations r)%nat.
Proof.
  intros Hh%honest_link_honest_P Hrun Hf.
  destruct (found_chain this start goal _ Hh fuel w r w' Hrun Hf)
    as (st & p & Hr & Hsel & Hp & ->).
  pose proof (ChainInv_reachable _ start goal _ Hh w _ Hr) as HC.
  pose proof (InvAt_reachable _ start goal w _ Hr) as [HI _]. simpl in HI.
  edestruct (chain_NoDup (W:=W)) as [Hfrom Hto]; [exact HC | exact Hp |].
  exists p. simpl. split_and!; [done | |].
  - apply NoDup_cons. split; [|done].
    intros Hs. apply list_elem_of_fmap in Hs as (l & Hl & Hin).
    apply list_elem_of_split in Hin as (p1 & p2 & ->).
    edestruct (chain_prefix (W:=W)) as [H1 _];
      [exact HC | exact Hp | reflexivity |].
    rewrite <- Hl in H1.
    pose proof (chain_null (cameFrom st) (λ m, m ∈ closed st) start
                  (ci_start _ _ _ HC)) as H2.
    destruct (chain_functional _ _ _ _ _ _ _ _ H1 H2) as [Heq _].
    by destruct p1.
  - rewrite (inv_iterations _ _ _ HI).
    apply chain_from_frozen in Hp.
    assert (list_to_set (map from p) ⊆ closed st) as Hsub.
    { intros m Hm. apply elem_of_list_to_set, list_elem_of_fmap in Hm
        as (l & -> & Hl).
      rewrite Forall_forall in Hp. by apply Hp. }
    apply subseteq_size in Hsub.
    rewrite size_list_to_set, length_map in Hsub by done. lia.
Qed.


(** ** Reachability on a graph, whatever the heuristic *)

Lemma graph_expander_links g H :
  expander_spec (λ n l, l ∈ g ∧ from l = n) (graph_astar g H).
Proof.
  intros n w links w' Heq. rewrite graph_astar_links in Heq.
  injection Heq as <- <-. apply Forall_forall.
  by intros l ?%graph_links_spec.
Qed.


Section Reachability.

Variable g : list Link.
Variable H : option (Node → Node → Z).
Variables start goal : Node.

Lemma ReachInv_init (w : unit) : ReachInv g start (AtLoopHead, init start, w).
Proof.
  split; simpl.
  - intros n. destruct (decide (n = start)) as [->|Hn].
    + intros _. by exists [].
    + rewrite lookup_insert_ne, lookup_empty by done. by intros [? ?].
  - intros l _ Hl. set_solver.
  - done.
Qed.

Lemma ReachInv_step (c c' : point * State * unit) :
  InvAt start goal c →
  pending (λ n l, l ∈ g ∧ from l = n) c →
  ReachInv g start c →
  step (graph_astar g H) start goal c c' →
  ReachInv g start c'.
Proof.
  intros [HI Hpt] Hp HR Hstep.
  destruct Hstep as [st w best links w' Hsel Hg Hl
                    |st w best link rest st' w' Hr
                    |st w best]; unfold pending in Hp; cbn [fst snd] in *.
  - rewrite graph_astar_links in Hl. injection Hl as <- <-.
    split; cbn [fst snd]; [apply HR | apply HR |].
    intros l Hl Hfrom. left. by apply graph_links_spec.
  - destruct Hpt as [Hb Hg]. apply Forall_cons in Hp as [[Hlg Hfrom] _].
    apply relax_link_Return in Hr
      as [(Hc & -> & ->)|[(Hc & Hu & -> & ->)|(Hc & Hu & h & Hh & ->)]].
    + split; cbn [fst snd]; [apply HR | apply HR |].
      intros l Hl Hlb.
      destruct (ri_best _ _ _ HR l Hl Hlb) as [[->|Hin]%elem_of_cons|He];
        [| by left | by right].
      right. apply (inv_dom _ _ _ HI). by right.
    + split; cbn [fst snd]; [apply HR | apply HR |].
      intros l Hl Hlb. simpl.
      destruct (ri_best _ _ _ HR l Hl Hlb) as [[->|Hin]%elem_of_cons|He];
        [| by left | by right].
      right. by eapply needs_update_false.
    + split; cbn [fst snd]; simpl.
      * intros n. destruct (decide (n = to link)) as [->|Hn].
        -- intros _. destruct (ri_path _ _ _ HR best) as [q Hq].
           { apply (inv_dom _ _ _ HI). by left. }
           exists (q ++ [link]). rewrite <- Hfrom in Hq. by apply is_path_snoc.
        -- rewrite lookup_insert_ne by done. apply (ri_path _ _ _ HR).
      * intros l Hl Hcl. destruct (decide (to l = to link)) as [->|Hn].
        -- rewrite lookup_insert_eq. eauto.
        -- rewrite lookup_insert_ne by done. by apply (ri_closed _ _ _ HR).
      * intros l Hl Hlb.
        destruct (decide (to l = to link)) as [Heq|Hn].
        -- right. rewrite Heq, lookup_insert_eq. eauto.
        -- rewrite lookup_insert_ne by done.
           destruct (ri_best _ _ _ HR l Hl Hlb) as [[->|Hin]%elem_of_cons|He];
             [done | by left | by right].
  - split; cbn [fst snd]; simpl.
    + apply (ri_path _ _ _ HR).
    + intros l Hl [Hlb%elem_of_singleton|Hcl]%elem_of_union.
      * by destruct (ri_best _ _ _ HR l Hl Hlb) as [?%not_elem_of_nil|?].
      * by apply (ri_closed _ _ _ HR).
    + done.
Qed.

Lemma ReachInv_reachable w0 c :
  reachable (graph_astar g H) start goal w0 c → ReachInv g start c.
Proof.
  intros Hs.
  assert (InvAt start goal (AtLoopHead, init start, w0)
          ∧ pending (λ n l, l ∈ g ∧ from l = n) (AtLoopHead, init start, w0)
          ∧ ReachInv g start (AtLoopHead, init start, w0)) as Hinit.
  { split_and!; [split; [apply Inv_init | done] | done | apply ReachInv_init]. }
  unfold reachable in Hs.
  induction Hs as [|c1 c2 c3 H12 H23 IH]; [apply Hinit|].
  destruct Hinit as (HI & Hp & HR). apply IH. split_and!.
  - by eapply InvAt_step.
  - eapply pending_step; [apply graph_expander_links | done..].
  - by eapply ReachInv_step.
Qed.

(** When [open] is exhausted, the closed nodes are the nodes reachable
    from the start. *)
Lemma exhausted_closed_reachable (st : State) (w0 w : unit) n :
  reachable (graph_astar g H) start goal w0 (AtLoopHead, st, w) →
  select_best (totalCosts st) (open st) = None →
  n ∈ closed st ↔ ∃ q, is_path g start n q.
Proof.
  intros Hr Hs. apply select_best_None in Hs.
  pose proof (InvAt_reachable _ start goal w0 _ Hr) as [HI _]. simpl in HI.
  pose proof (ReachInv_reachable w0 _ Hr) as HR.
  assert (start ∈ closed st) as Hsc.
  { destruct (inv_start _ _ _ HI) as [Ho|?]; [|done].
    rewrite Hs in Ho. by apply not_elem_of_nil in Ho. }
  split.
  - intros Hn. apply (ri_path _ _ _ HR). apply (inv_dom _ _ _ HI). by right.
  - intros [q Hq]. destruct (decide (n ∈ closed st)) as [|Hn]; [done|].
    exfalso.
    destruct (path_crossing g (closed st) start n q Hq Hsc Hn)
      as (q1 & l & q2 & -> & Hq1 & Hl & Hu & Hv & Hq2).
    pose proof (ri_closed _ _ _ HR l Hl Hu) as He. cbn [fst snd] in He.
    apply (inv_dom _ _ _ HI) in He as [Ho|?]; [|done].
    rewrite Hs in Ho. by apply not_elem_of_nil in Ho.
Qed.

End Reachability.


(** X5: on a graph, a search that does not find the goal has expanded
    every node reachable from the start and no other: its iteration count
    is the number of reachable nodes plus one. *)
Theorem not_found_counts_reachable (g : list Link)
    (H : option (Node → Node → Z)) (start goal : Node) (fuel : nat)
    (r : Path.t) :
  findPath (graph_astar g H) start goal fuel () = (Return r, ()) →
  Path.found r = false →
  ∃ C : gset Node,
    (∀ n, n ∈ C ↔ ∃ q, is_path g start n q)
    ∧ Path.iterations r = S (size C).
Proof.
  intros [(st & w1 & Hr & Hs & ->)|(st & path & Hr & Hs & Ht & ->)]%findPath_Return;
    [|done].
  intros _. exists (closed st). split.
  - intros n. by eapply exhausted_closed_reachable.
  - pose proof (InvAt_reachable _ start goal () _ Hr) as [HI _].
    apply (inv_iterations _ _ _ HI).
Qed.


(** X7: when the links that the expander returns end at nodes of a finite
    list [U], the returned iteration count is at most the number of nodes
    among the start and [U], plus one; when the goal is found it is at
    most that number. *)
Theorem iterations_bounded {W Err : Type} (this : AStar W Err)
    (start goal : Node) (U : list Node) (fuel : nat) (w w' : W) (r : Path.t) :
  expander_spec (λ _ l, to l ∈ U) this →
  findPath this start goal fuel w = (Return r, w') →
  (Path.iterations r ≤ S (size (universe start U)))%nat
  ∧ (Path.found r = true →
     (Path.iterations r ≤ size (universe start U))%nat).
Proof.
  intros HU Hrun.
  assert (∀ st w1, reachable this start goal w (AtLoopHead, st, w1) →
            Inv start goal st ∧ reached st ⊆ universe start U) as Hreach.
  { intros st w1 Hr. split.
    - by pose proof (InvAt_reachable _ start goal w _ Hr) as [HI _].
    - eapply (reached_steps this start goal U HU
                (AtLoopHead, init start, w) (AtLoopHead, st, w1));
        [done | by apply (reached_init this) | done]. }
  assert (∀ st, Inv start goal st → reached st ⊆ universe start U →
            closed st ⊆ universe start U) as Hclosed.
  { intros st HI Hsub n Hn. apply Hsub, elem_of_dom, (inv_dom _ _ _ HI). by right. }
  apply findPath_Return in Hrun
    as [(st & w1 & Hr & Hs & ->)|(st & path & Hr & Hs & Ht & ->)];
    destruct (Hreach _ _ Hr) as [HI Hsub]; simpl;
    rewrite (inv_iterations _ _ _ HI).
  - split; [|done]. apply le_n_S, subseteq_size. by apply Hclosed.
  - assert (closed st ⊆ universe start U ∖ {[goal]}) as Hsub'.
    { pose proof (Hclosed _ HI Hsub). pose proof (inv_goal _ _ _ HI). set_solver. }
    assert (goal ∈ universe start U) as Hg.
    { apply Hsub, elem_of_dom, (inv_dom _ _ _ HI). left.
      by eapply select_best_elem. }
    apply subseteq_size in Hsub'.
    rewrite size_difference in Hsub' by set_solver.
    rewrite size_singleton in Hsub'.
    assert (size (universe start U) ≠ 0%nat).
    { intros Hz. apply size_empty_inv in Hz. set_solver. }
    split; [lia|]. intros _. lia.
Qed.

(** ** The calls that [findPath] makes *)

Lemma expanded_app {Err : Type} (l1 l2 : list (call Err)) :
  expanded (l1 ++ l2) = expanded l1 ++ expanded l2.
Proof. unfold expanded. apply omap_app. Qed.

Lemma heuristic_only_expanded {Err : Type} start T (ext : list (call Err)) :
  heuristic_only start T ext → expanded ext = [].
Proof.
  induction 1 as [|c ext (b & r & -> & _) _ IH]; [done|]. by simpl.
Qed.

Lemma heuristic_only_ok {Err : Type} start T (ext : list (call Err)) :
  heuristic_only start T ext → heuristic_calls_ok start T ext.
Proof.
  induction 1 as [|c ext (b & r & -> & Hb) _ IH]; [done|]. by simpl.
Qed.

Lemma heuristic_only_mono {Err : Type} start T T' (ext : list (call Err)) :
  (∀ b, b ∈ T → b ∈ T') → heuristic_only start T ext → heuristic_only start T' ext.
Proof.
  intros HT Hext. unfold heuristic_only. eapply Forall_impl; [exact Hext|].
  intros c (b & r & -> & Hb). eauto.
Qed.

Lemma heuristic_calls_ok_app {Err : Type} start cur (l1 l2 : list (call Err)) :
  heuristic_calls_ok start cur l1 →
  heuristic_calls_ok start (last_targets cur l1) l2 →
  heuristic_calls_ok start cur (l1 ++ l2).
Proof.
  revert cur. induction l1 as [|c l1 IH]; intros cur; simpl; [done|].
  destruct c as [n [e|links]|a b r]; [by apply IH.. |].
  intros (? & ? & ?) ?. split_and!; [done..|]. by apply IH.
Qed.

Section Calls.

Context {W Err : Type}.
Variable this : AStar W Err.
Variables start goal : Node.

(** One link makes at most one call: the heuristic, on the start and the
    target of the link. *)
Lemma logged_relax_link best st link w log o w' log' :
  relax_link (logged this) start best st link (w, log) = (o, (w', log')) →
  ∃ ext, log' = log ++ ext ∧ heuristic_only start [to link] ext.
Proof.
  unfold relax_link. case_bool_decide.
  { intros [= <- <- <-]. exists []. split; [by rewrite app_nil_r | constructor]. }
  destruct (needs_update _ _ _).
  - unfold bind, await. simpl.
    destruct (calculateHeuristicCostToTraverseLink this start (to link) w)
      as [[e|h] w1]; intros [= <- <- <-];
      (eexists; split; [done|]); apply Forall_singleton;
      eexists _, _; (split; [done | by apply list_elem_of_singleton]).
  - intros [= <- <- <-]. exists []. split; [by rewrite app_nil_r | constructor].
Qed.

Lemma logged_relax_links best links st w log o w' log' :
  relax_links (logged this) start best links st (w, log) = (o, (w', log')) →
  ∃ ext, log' = log ++ ext ∧ heuristic_only start (map to links) ext.
Proof.
  revert st w log. induction links as [|l ls IH]; intros st w log; simpl.
  { intros [= <- <- <-]. exists []. split; [by rewrite app_nil_r | constructor]. }
  unfold bind.
  destruct (relax_link (logged this) start best st l (w, log))
    as [o1 [w1 log1]] eqn:H1.
  apply logged_relax_link in H1 as (ext1 & -> & Hext1).
  assert (heuristic_only start (to l :: map to ls) ext1) as Hext1'.
  { eapply heuristic_only_mono; [|exact Hext1].
    intros b ->%list_elem_of_singleton. by left. }
  destruct o1 as [st1|e|].
  - intros (ext2 & -> & Hext2)%IH. exists (ext1 ++ ext2).
    split; [by rewrite app_assoc|]. apply Forall_app. split; [done|].
    eapply heuristic_only_mono; [|exact Hext2]. intros b Hb. by right.
  - intros [= <- <- <-]. by exists ext1.
  - intros [= <- <- <-]. by exists ext1.
Qed.

(** One pass either makes no call, and does not fall through, or calls
    the expander on [best], once, and then the heuristic on targets of the
    links returned. *)
Lemma logged_iteration st w log o w' log' :
  iteration (logged this) start goal st (w, log) = (o, (w', log')) →
  (log' = log ∧ ∀ st', o ≠ Return (Continue st'))
  ∨ ∃ best block,
      select_best (totalCosts st) (open st) = Some best
      ∧ goal ≠ best
      ∧ log' = log ++ block
      ∧ expanded block = [best]
      ∧ ∀ cur, heuristic_calls_ok start cur block.
Proof.
  unfold iteration. intros Hrun.
  destruct (select_best _ _) as [best|] eqn:Hsel.
  2:{ injection Hrun as <- <- <-. by left. }
  case_bool_decide as Hg.
  { injection Hrun as <- <- <-. by left. }
  right. exists best. unfold bind, await in Hrun. simpl in Hrun.
  destruct (calculateLinksForNode this best w) as [[e|links] w1].
  - injection Hrun as <- <- <-. exists [CallLinks best (inl e)]. by split_and!.
  - destruct (relax_links (logged this) start best links st
                (w1, log ++ [CallLinks best (inr links)]))
      as [o2 [w2 log2]] eqn:H2.
    apply logged_relax_links in H2 as (ext & -> & Hext).
    exists (CallLinks best (inr links) :: ext).
    assert (log' = (log ++ [CallLinks best (inr links)]) ++ ext) as ->
      by (destruct o2; by injection Hrun as _ _ <-).
    split_and!; [done | done | by rewrite <- app_assoc | |].
    + simpl. by erewrite heuristic_only_expanded.
    + intros cur. simpl. by apply heuristic_only_ok.
Qed.

Lemma log_agrees_summary st (log : list (call Err)) :
  Inv start goal st → log_agrees start st log →
  log_summary start goal log (Some (iterations st)).
Proof.
  intros HI (Hnd & Hset & _ & Hhead). split_and!; [done | | done |].
  - intros Hg. apply (inv_goal _ _ _ HI). rewrite <- Hset.
    by apply elem_of_list_to_set.
  - intros i [= <-]. rewrite (inv_iterations _ _ _ HI), <- Hset.
    by rewrite size_list_to_set.
Qed.

Lemma logged_search fuel st w log cur o w' log' :
  Inv start goal st → log_agrees start st log →
  heuristic_calls_ok start cur log →
  search (logged this) start goal fuel st (w, log) = (o, (w', log')) →
  heuristic_calls_ok start cur log'
  ∧ log_summary start goal log'
      match o with
      | Return (inl p) => Some (Path.iterations p)
      | Return (inr (_, st')) => Some (iterations st')
      | _ => None
      end.
Proof.
  revert st w log. induction fuel as [|fuel IH]; intros st w log HI Hag Hok.
  { simpl. intros [= <- <- <-]. split; [done|].
    destruct (log_agrees_summary st log HI Hag) as (? & ? & ? & _).
    by split_and!. }
  cbn [search]. unfold bind.
  destruct (iteration (logged this) start goal st (w, log))
    as [o1 [w1 log1]] eqn:Hit.
  pose proof (log_agrees_summary st log HI Hag) as Hsum.
  destruct (logged_iteration _ _ _ _ _ _ Hit)
    as [[-> Hnc]|(best & block & Hsel & Hg & -> & Hexp & Hblock)].
  - (* no call: the loop is left *)
    destruct o1 as [[st1|p|b st1]|e|].
    + by destruct (Hnc st1).
    + intros [= <- <- <-]. split; [done|].
      by apply iteration_ReturnNotFound in Hit as (-> & _).
    + intros [= <- <- <-]. split; [done|].
      by apply iteration_Break in Hit as (-> & _).
    + intros [= <- <- <-]. split; [done|].
      destruct Hsum as (? & ? & ? & _). by split_and!.
    + intros [= <- <- <-]. split; [done|].
      destruct Hsum as (? & ? & ? & _). by split_and!.
  - (* the expander is called on best *)
    pose proof (select_best_elem _ _ _ Hsel) as Hbo.
    destruct Hag as (Hnd & Hset & Hempty & Hhead).
    assert (best ∉ expanded log) as Hnew.
    { intros Hin. apply (inv_disjoint _ _ _ HI _ Hbo). rewrite <- Hset.
      by apply elem_of_list_to_set. }
    assert (NoDup (expanded (log ++ block))) as Hnd'.
    { rewrite expanded_app, Hexp. apply NoDup_app. split_and!; [done | | apply NoDup_singleton].
      by intros n Hn ->%list_elem_of_singleton. }
    assert (∀ n rest, expanded (log ++ block) = n :: rest → n = start) as Hhead'.
    { intros n rest. rewrite expanded_app, Hexp.
      destruct (expanded log) as [|m ms] eqn:He.
      - simpl. intros [= <- _]. specialize (Hempty eq_refl).
        rewrite Hempty in Hbo. by apply list_elem_of_singleton in Hbo.
      - simpl. intros [= <- _]. by eapply Hhead. }
    assert (heuristic_calls_ok start cur (log ++ block)) as Hok'
      by (by apply heuristic_calls_ok_app).
    assert (goal ∉ expanded (log ++ block)) as Hgoal'.
    { rewrite expanded_app, Hexp. destruct Hsum as (_ & Hgl & _).
      intros [?|?%list_elem_of_singleton]%elem_of_app; done. }
    destruct o1 as [[st1|p|b st1]|e|].
    + apply IH; [| |done].
      * pose proof (iteration_Continue _ _ _ _ _ _ _ Hit) as Hsteps.
        assert (InvAt start goal (AtLoopHead, st, (w, log))) as HIA by (by split).
        by destruct (InvAt_steps _ _ _ _ _ HIA Hsteps) as [? _].
      * destruct (iteration_closes_best _ _ _ _ _ _ _ HI Hit)
          as (b' & Hsel' & _ & _ & Hcl & _).
        assert (b' = best) as -> by congruence.
        split_and!; [done | | | done].
        -- rewrite expanded_app, Hexp, Hcl, list_to_set_app_L, Hset. set_solver.
        -- rewrite expanded_app, Hexp. by intros [_ [=]]%app_eq_nil.
    + apply iteration_ReturnNotFound in Hit as (_ & _ & ?). congruence.
    + apply iteration_Break in Hit as (_ & _ & ? & ?). congruence.
    + intros [= <- <- <-]. by split_and!.
    + intros [= <- <- <-]. by split_and!.
Qed.

Lemma logged_findPath fuel w o w' log' :
  findPath (logged this) start goal fuel (w, []) = (o, (w', log')) →
  heuristic_calls_ok start [] log'
  ∧ log_summary start goal log'
      match o with
      | Return r => Some (Path.iterations r)
      | _ => None
      end.
Proof.
  unfold findPath, bind.
  destruct (search (logged this) start goal fuel (init start) (w, []))
    as [o1 [w1 log1]] eqn:Hs.
  apply (logged_search fuel (init start) w [] []) in Hs as [Hok Hsum];
    [|apply Inv_init| |done].
  2:{ split_and!; [constructor | done | | done]. intros _. simpl. apply set_add_nil. }
  destruct o1 as [[p|[best st]]|e|].
  - by intros [= <- <- <-].
  - unfold lift.
    destruct (trace_back fuel (cameFrom st) (cameFrom st !! best) [])
      as [path|e|]; intros [= <- <- <-]; (split; [done|]); [done | |];
      destruct Hsum as (? & ? & ? & _); by split_and!.
  - by intros [= <- <- <-].
  - by intros [= <- <- <-].
Qed.

End Calls.

(** X8: during one [findPath], the expander is called at most once on
    each node, whatever the collaborators return or throw. *)
Theorem expander_called_once_per_node {W Err : Type} (this : AStar W Err)
    (start goal : Node) (fuel : nat) (w w' : W) (o : outcome Err Path.t)
    (log : list (call Err)) :
  findPath (logged this) start goal fuel (w, []) = (o, (w', log)) →
  NoDup (expanded log).
Proof. by intros (_ & ? & _)%logged_findPath. Qed.

(** X9: the expander is never called on the goal, and its first call, if
    there is one, is on the start. *)
Theorem goal_never_expanded_start_first {W Err : Type} (this : AStar W Err)
    (start goal : Node) (fuel : nat) (w w' : W) (o : outcome Err Path.t)
    (log : list (call Err)) :
  findPath (logged this) start goal fuel (w, []) = (o, (w', log)) →
  (goal ∉ expanded log)
  ∧ ∀ n rest, expanded log = n :: rest → n = start.
Proof. by intros (_ & _ & ? & ? & _)%logged_findPath. Qed.

(** X10: the iteration count that [findPath] returns is the number of
    calls of the expander plus one. *)
Theorem iterations_counts_expansions {W Err : Type} (this : AStar W Err)
    (start goal : Node) (fuel : nat) (w w' : W) (r : Path.t)
    (log : list (call Err)) :
  findPath (logged this) start goal fuel (w, []) = (Return r, (w', log)) →
  Path.iterations r = S (length (expanded log)).
Proof. intros (_ & _ & _ & _ & Hi)%logged_findPath. by apply Hi. Qed.

(** X11: every call of the heuristic has the start as its first argument
    and, as its second, the target of a link that the latest call of the
    expander returned. *)
Theorem heuristic_called_on_start_and_new_targets {W Err : Type}
    (this : AStar W Err) (start goal : Node) (fuel : nat) (w w' : W)
    (o : outcome Err Path.t) (log : list (call Err)) :
  findPath (logged this) start goal fuel (w, []) = (o, (w', log)) →
  heuristic_calls_ok start [] log.
Proof. by intros [? _]%logged_findPath. Qed.

(** ** The further properties at concrete inputs *)

Local Open Scope string_scope.
Local Open Scope list_scope.
Local Open Scope Z_scope.

Lemma two_routes_no_self_link :
  Forall (λ l, to l = from l → 0 ≤ cost l) two_routes.
Proof. repeat constructor; simpl; discriminate. Qed.

Lemma two_routes_run :
  findPath (graph_astar two_routes None) "a" "d" 10 ()
  = (Return {| Path.found := true; Path.iterations := 4;
               Path.cost := Some (Num 3);
               Path.path := Some [mkLink "a" "c" 1; mkLink "c" "d" 2] |}, ()).
Proof. vm_compute. reflexivity. Qed.


Lemma returned_path_is_simple_witness :
  expander_spec honest_link (graph_astar two_routes None)
  ∧ ∃ p,
      Some [mkLink "a" "c" 1; mkLink "c" "d" 2] = Some p
      ∧ NoDup ("a" :: map to p)
      ∧ (length p < 4)%nat.
Proof.
  pose proof (graph_honest two_routes None two_routes_no_self_link) as Hh.
  split; [exact Hh|].
  exact (returned_path_is_simple (graph_astar two_routes None) "a" "d"
           10 () () _ Hh two_routes_run eq_refl).
Defined.


(** A link that starts at a node without an entry makes the
    reconstruction loop read a missing entry. *)
Example misplaced_from_raises_TypeError :
  findPath (Err:=Empty_set)
    (new_AStar (λ node, pure_call (if bool_decide (node = "s")
                                     then [mkLink "x" "g" 1] else []))
               None)
    "s" "g" 10 ()
  = (Raise TypeError, ()).
Proof. vm_compute. reflexivity. Qed.


Lemma two_routes_unreachable_run :
  findPath (graph_astar two_routes None) "a" "z" 10 ()
  = (Return {| Path.found := false; Path.iterations := 5;
               Path.cost := None; Path.path := None |}, ()).
Proof. vm_compute. reflexivity. Qed.

Lemma not_found_counts_reachable_witness :
  findPath (graph_astar two_routes None) "a" "z" 10 ()
  = (Return {| Path.found := false; Path.iterations := 5;
               Path.cost := None; Path.path := None |}, ())
  ∧ ∃ C : gset Node,
      (∀ n, n ∈ C ↔ ∃ q, is_path two_routes "a" n q)
      ∧ 5%nat = S (size C).
Proof.
  split; [exact two_routes_unreachable_run|].
  exact (not_found_counts_reachable two_routes None "a" "z" 10 _
           two_routes_unreachable_run eq_refl).
Defined.



Lemma iterations_bounded_witness :
  let U := map to two_routes in
  expander_spec (λ _ l, to l ∈ U) (graph_astar two_routes None)
  ∧ (4 ≤ S (size (universe "a" U)))%nat
  ∧ (true = true → (4 ≤ size (universe "a" U))%nat).
Proof.
  intros U.
  pose proof (graph_expander_finite two_routes None) as HU.
  split; [exact HU|].
  exact (iterations_bounded (graph_astar two_routes None) "a" "d" U 10 () () _
           HU two_routes_run).
Defined.

Lemma two_routes_logged_run :
  findPath (logged (graph_astar two_routes None)) "a" "d" 10 ((), [])
  = (Return {| Path.found := true; Path.iterations := 4;
               Path.cost := Some (Num 3);
               Path.path := Some [mkLink "a" "c" 1; mkLink "c" "d" 2] |},
     ((), [CallLinks "a" (inr [mkLink "a" "b" 3; mkLink "a" "c" 1]);
           CallHeuristic "a" "b" (inr 0);
           CallHeuristic "a" "c" (inr 0);
           CallLinks "c" (inr [mkLink "c" "d" 2]);
           CallHeuristic "a" "d" (inr 0);
           CallLinks "b" (inr [mkLink "b" "d" 3])])).
Proof. vm_compute. reflexivity. Qed.

Lemma failing_expander_logged_run :
  findPath (logged failing_expander) "a" "e" 10 ((), [])
  = (Raise (CollaboratorError "unreachable store"),
     ((), [CallLinks "a" (inr [mkLink "a" "b" 3; mkLink "a" "c" 1]);
           CallHeuristic "a" "b" (inr 0);
           CallHeuristic "a" "c" (inr 0);
           CallLinks "c" (inr [mkLink "c" "d" 2]);
           CallHeuristic "a" "d" (inr 0);
           CallLinks "b" (inl "unreachable store")])).
Proof. vm_compute. reflexivity. Qed.

Lemma expander_called_once_per_node_witness :
  findPath (logged failing_expander) "a" "e" 10 ((), [])
  = (Raise (CollaboratorError "unreachable store"),
     ((), [CallLinks "a" (inr [mkLink "a" "b" 3; mkLink "a" "c" 1]);
           CallHeuristic "a" "b" (inr 0);
           CallHeuristic "a" "c" (inr 0);
           CallLinks "c" (inr [mkLink "c" "d" 2]);
           CallHeuristic "a" "d" (inr 0);
           CallLinks "b" (inl "unreachable store")]))
  ∧ NoDup ["a"; "c"; "b"].
Proof.
  split; [exact failing_expander_logged_run|].
  exact (expander_called_once_per_node failing_expander "a" "e" 10 () () _ _
           failing_expander_logged_run).
Defined.

Lemma goal_never_expanded_start_first_witness :
  findPath (logged (graph_astar two_routes None)) "a" "d" 10 ((), [])
  = (Return {| Path.found := true; Path.iterations := 4;
               Path.cost := Some (Num 3);
               Path.path := Some [mkLink "a" "c" 1; mkLink "c" "d" 2] |},
     ((), [CallLinks "a" (inr [mkLink "a" "b" 3; mkLink "a" "c" 1]);
           CallHeuristic "a" "b" (inr 0);
           CallHeuristic "a" "c" (inr 0);
           CallLinks "c" (inr [mkLink "c" "d" 2]);
           CallHeuristic "a" "d" (inr 0);
           CallLinks "b" (inr [mkLink "b" "d" 3])]))
  ∧ ("d" ∉ ["a"; "c"; "b"])
  ∧ ∀ n rest, ["a"; "c"; "b"] = n :: rest → n = "a".
Proof.
  split; [exact two_routes_logged_run|].
  exact (goal_never_expanded_start_first (graph_astar two_routes None)
           "a" "d" 10 () () _ _ two_routes_logged_run).
Defined.

Lemma iterations_counts_expansions_witness :
  findPath (logged (graph_astar two_routes None)) "a" "d" 10 ((), [])
  = (Return {| Path.found := true; Path.iterations := 4;
               Path.cost := Some (Num 3);
               Path.path := Some [mkLink "a" "c" 1; mkLink "c" "d" 2] |},
     ((), [CallLinks "a" (inr [mkLink "a" "b" 3; mkLink "a" "c" 1]);
           CallHeuristic "a" "b" (inr 0);
           CallHeuristic "a" "c" (inr 0);
           CallLinks "c" (inr [mkLink "c" "d" 2]);
           CallHeuristic "a" "d" (inr 0);
           CallLinks "b" (inr [mkLink "b" "d" 3])]))
  ∧ 4%nat = S (length ["a"; "c"; "b"]).
Proof.
  split; [exact two_routes_logged_run|].
  exact (iterations_counts_expansions (graph_astar two_routes None)
           "a" "d" 10 () () _ _ two_routes_logged_run).
Defined.

Lemma heuristic_called_on_start_and_new_targets_witness :
  let log := [CallLinks "a" (inr [mkLink "a" "b" 3; mkLink "a" "c" 1]);
              CallHeuristic "a" "b" (inr 0);
              CallHeuristic "a" "c" (inr 0);
              CallLinks "c" (inr [mkLink "c" "d" 2]);
              CallHeuristic "a" "d" (inr 0);
              CallLinks (Err:=string) "b" (inl "unreachable store")] in
  findPath (logged failing_expander) "a" "e" 10 ((), [])
  = (Raise (CollaboratorError "unreachable store"), ((), log))
  ∧ heuristic_calls_ok "a" [] log.
Proof.
  intros log. split; [exact failing_expander_logged_run|].
  exact (heuristic_called_on_start_and_new_targets failing_expander
           "a" "e" 10 () () _ _ failing_expander_logged_run).
Defined.

Local Close Scope string_scope.
